(** * seqr: reconciliation of VCF sample ids against project records

    A shallow embedding of [seqr/management/commands/add_vcf.py]:
    - [compute_edit_distance], the numpy two-row sweep;
    - [_match_vcf_id_to_sample_id], the three-stage matcher;
    - the part of [Command.handle] that looks up or creates the Dataset
      and links the matched samples to it.

    Python sets of strings are [gset string], the dict built by the matcher
    is a [gmap string SampleValue], database tables are lists of rows in
    query order.  Effects (record creation, logging, exceptions) are threaded
    through a state-and-exception monad over [World]. *)

From Stdlib Require Import Ascii String ZArith Lia.
From stdpp Require Import gmap strings list sorting.

Local Open Scope Z_scope.
Local Open Scope nat_scope.
Local Open Scope char_scope.
Local Open Scope string_scope.
Local Open Scope list_scope.
Local Open Scope stdpp_scope.

(** ** Edit distance *)

Module EditDistance.

(** [np.arange(n)]. *)
Definition np_arange (n : nat) : list nat := seq 0 n.

(** [target != s]: the elementwise comparison of the character array with one
    character, as the 0/1 values [np.add] reads the booleans as. *)
Definition np_not_equal (target : list ascii) (s : ascii) : list nat :=
  map (λ t, if decide (t = s) then 0 else 1) target.

(** [np.add(a, b)] and [np.minimum(a, b)] on arrays of the same length. *)
Definition np_add (a b : list nat) : list nat := zip_with Nat.add a b.
Definition np_minimum (a b : list nat) : list nat := zip_with Nat.min a b.

(** [row + 1]. *)
Definition np_add1 (row : list nat) : list nat := map (λ x, x + 1) row.

(** [row[1:] = new_tail]: the right-hand side is a finished array before the
    slice is overwritten. *)
Definition assign_from_1 (row new_tail : list nat) : list nat :=
  take 1 row ++ new_tail.

(** The body of [for s in source]. The row entries are int64 in numpy; they
    never exceed [len(source) + len(target)], so they are kept as [nat]. *)
Definition row_step (target : list ascii) (previous_row : list nat) (s : ascii)
  : list nat :=
  let current_row := np_add1 previous_row in
  let current_row :=
    assign_from_1 current_row
      (np_minimum (drop 1 current_row)
                  (np_add (removelast previous_row) (np_not_equal target s))) in
  let current_row :=
    assign_from_1 current_row
      (np_minimum (drop 1 current_row)
                  (np_add1 (removelast current_row))) in
  current_row.

(** The function after the swap, where [len(source) >= len(target)]. *)
Definition sweep (source target : list ascii) : nat :=
  if decide (List.length target = 0) then List.length source
  else
    let previous_row := np_arange (List.length target + 1) in
    List.last (fold_left (row_step target) source previous_row) 0.

Definition compute_edit_distance (source target : string) : nat :=
  let s := list_ascii_of_string source in
  let t := list_ascii_of_string target in
  if decide (List.length s < List.length t) then sweep t s else sweep s t.

(** The classic Levenshtein distance, written from its recurrence: insertion,
    deletion and substitution each cost 1. *)
Fixpoint lev (s : list ascii) : list ascii → nat :=
  fix lev_s (t : list ascii) : nat :=
    match s, t with
    | [], _ => List.length t
    | _, [] => List.length s
    | a :: s', b :: t' =>
        Nat.min (Nat.min (lev s' t + 1) (lev_s t' + 1))
                (lev s' t' + (if decide (a = b) then 0 else 1))
    end.

Definition levenshtein (a b : string) : nat :=
  lev (list_ascii_of_string a) (list_ascii_of_string b).

End EditDistance.

(** ** Records of the project database

    Only the fields the command reads are kept.  [sample_pk] and
    [dataset_id] are Django's primary keys. *)

Record Family := { family_id : string; project : string }.

Record Individual := { individual_id : string; family : Family }.

Record Sample := {
  sample_pk : nat;
  sample_id : string;
  sample_type : string;
  individual : Individual
}.

Record Dataset := {
  dataset_id : nat;
  analysis_type : string;
  source_file_path : string;
  is_loaded : bool;
  samples : list Sample
}.

#[global] Instance Family_eq_dec : EqDecision Family.
Proof. solve_decision. Defined.

#[global] Instance Individual_eq_dec : EqDecision Individual.
Proof. solve_decision. Defined.

#[global] Instance Sample_eq_dec : EqDecision Sample.
Proof. solve_decision. Defined.

#[global] Instance Dataset_eq_dec : EqDecision Dataset.
Proof. solve_decision. Defined.

(** A value of the dict [vcf_sample_id_to_sample_record]: a Sample, or the
    string ["placeholder"] that a validate-only run stores instead. *)
Inductive SampleValue :=
| SampleRecord (s : Sample)
| Placeholder.

#[global] Instance SampleValue_eq_dec : EqDecision SampleValue.
Proof. solve_decision. Defined.

(** The [logger.info] lines of the command (and the one [print]), without the
    project name that some of them interpolate. *)
Inductive LogMsg :=
| SampleIdsFound (n : nat) (vcf_sample_ids : list string)
| MatchExistingSample (vcf_sample_id : string)
| MatchIndividualExact (individual_id : string)
| MatchIndividualFuzzy (individual_id vcf_sample_id : string) (distance : Z)
| NoMatchMultiple (vcf_sample_id : string) (individual_ids : list string)
| StatsMatched (n : nat)
| StatsUnmatched (n : nat)
| AlreadyLoaded (n : nat)
| CreatedDataset (analysis_type vcf_path : string)
| LoadingDataset (dataset_id : nat).

Inductive exn :=
| UnboundLocalError
| AttributeError
| KeyError
| TypeError
| ObjectDoesNotExist
| MultipleObjectsReturned.

#[global] Instance exn_eq_dec : EqDecision exn.
Proof. solve_decision. Defined.

(** The state a run acts on: the three tables, the log, and a trace
    [compared] of the argument pairs [compute_edit_distance] was called on
    (the trace is not program state; it is kept to state which ids the fuzzy
    stage looks at). *)
Record World := {
  db_individuals : list Individual;
  db_samples : list Sample;
  db_datasets : list Dataset;
  log : list LogMsg;
  compared : list (string * string)
}.

Inductive result (A : Type) :=
| Return (a : A)
| Raise (e : exn).
Arguments Return {A} a.
Arguments Raise {A} e.

Definition M (A : Type) : Type := World → result A * World.

#[global] Instance M_ret : MRet M := λ A a w, (Return a, w).

#[global] Instance M_bind : MBind M := λ A B f m w,
  match m w with
  | (Return a, w') => f a w'
  | (Raise e, w') => (Raise e, w')
  end.

Definition raise {A} (e : exn) : M A := λ w, (Raise e, w).

(** [try: m except e: handler]. *)
Definition try_except {A} (m : M A) (e : exn) (handler : M A) : M A := λ w,
  match m w with
  | (Raise e', w') => if decide (e' = e) then handler w' else (Raise e', w')
  | r => r
  end.

Definition logger_info (msg : LogMsg) : M unit := λ w,
  (Return (),
   {| db_individuals := db_individuals w; db_samples := db_samples w;
      db_datasets := db_datasets w; log := log w ++ [msg];
      compared := compared w |}).

(** Reading a local variable that may not have been assigned yet. *)
Definition read_local {A} (x : option A) : M A :=
  match x with
  | Some a => mret a
  | None => raise UnboundLocalError
  end.

(** [for x in l: s = body(s, x)], with the loop-carried variables in [s]. *)
Fixpoint for_each {A S} (body : S → A → M S) (l : list A) (s : S) : M S :=
  match l with
  | [] => mret s
  | x :: l' => s' ← body s x; for_each body l' s'
  end.

(** The order in which a Python set of strings is iterated: some enumeration
    of its elements, the same whenever the same set is iterated again. *)
Record SetOrder := {
  iter : gset string → list string;
  iter_perm : ∀ X, iter X ≡ₚ elements X
}.

Definition elements_order : SetOrder :=
  {| iter := elements; iter_perm := λ X, reflexivity (elements X) |}.

Lemma reverse_elements_perm (X : gset string) : reverse (elements X) ≡ₚ elements X.
Proof. apply reverse_Permutation. Qed.

Definition reverse_order : SetOrder :=
  {| iter := λ X, reverse (elements X); iter_perm := reverse_elements_perm |}.

(** ** Queries *)

Definition in_project (project0 : string) (i : Individual) : Prop :=
  project (family i) = project0.

#[global] Instance in_project_dec p i : Decision (in_project p i).
Proof. unfold in_project. apply _. Defined.

(** [Sample.objects.select_related('individual').filter(
      individual__family__project=project, sample_type=sample_type)]. *)
Definition Sample_objects_filter (project0 sample_type0 : string) : M (list Sample) := λ w,
  (Return (filter (λ s, in_project project0 (individual s) ∧ sample_type s = sample_type0)
                  (db_samples w)), w).

(** [Individual.objects.filter(family__project=project)]. *)
Definition Individual_objects_filter (project0 : string) : M (list Individual) := λ w,
  (Return (filter (in_project project0) (db_individuals w)), w).

Definition fresh_sample_pk (rows : list Sample) : nat :=
  S (foldr Nat.max 0 (sample_pk <$> rows)).

(** [Sample.objects.create(sample_id=..., sample_type=..., individual=...)]. *)
Definition Sample_objects_create (sample_id0 sample_type0 : string) (individual0 : Individual)
  : M Sample := λ w,
  let s := {| sample_pk := fresh_sample_pk (db_samples w); sample_id := sample_id0;
              sample_type := sample_type0; individual := individual0 |} in
  (Return s,
   {| db_individuals := db_individuals w; db_samples := db_samples w ++ [s];
      db_datasets := db_datasets w; log := log w; compared := compared w |}).

(** The call [compute_edit_distance(vcf_sample_id, individual_id)], recorded
    in the trace. *)
Definition call_compute_edit_distance (vcf_sample_id individual_id0 : string) : M nat := λ w,
  (Return (EditDistance.compute_edit_distance vcf_sample_id individual_id0),
   {| db_individuals := db_individuals w; db_samples := db_samples w;
      db_datasets := db_datasets w; log := log w;
      compared := compared w ++ [(vcf_sample_id, individual_id0)] |}).

(** ** The matcher: [_match_vcf_id_to_sample_id] *)

(** [{s.sample_id: s for s in rows}]: a later row replaces an earlier one
    with the same sample id. *)
Definition sample_id_dict (rows : list Sample) : gmap string Sample :=
  foldl (λ d s, <[sample_id s := s]> d) ∅ rows.

(** The variables the inner loop of step 3 carries: the lowest distance so
    far and the variable [current_lowest_edit_distance_individual], which has
    no value until its first assignment. *)
Record Candidates := {
  current_lowest_edit_distance : Z;
  current_lowest_edit_distance_individual : option (list Individual)
}.

(** The variables the outer loop of step 3 carries. *)
Record FuzzyState := {
  vcf_sample_id_to_sample_record : gmap string SampleValue;
  individual_ids_without_matching_sample_record : gset string;
  lowest_individual_var : option (list Individual)
}.

Section Matcher.

Variable o : SetOrder.
Variables (project0 sample_type0 : string) (validate_only : bool) (max_edit_distance : Z).

(** Step 1: the body of [for vcf_sample_id in vcf_sample_ids_set]. *)
Definition step1_body (existing_samples_of_this_type : gmap string Sample)
    (d : gmap string SampleValue) (vcf_sample_id : string) : M (gmap string SampleValue) :=
  match existing_samples_of_this_type !! vcf_sample_id with
  | Some existing_sample_record =>
      logger_info (MatchExistingSample vcf_sample_id);;
      mret (<[vcf_sample_id := SampleRecord existing_sample_record]> d)
  | None => mret d
  end.

Definition step1 (vcf_sample_ids_set : gset string) : M (gmap string SampleValue) :=
  rows ← Sample_objects_filter project0 sample_type0;
  let existing_samples_of_this_type := sample_id_dict rows in
  for_each (step1_body existing_samples_of_this_type) (iter o vcf_sample_ids_set) ∅.

(** Step 2: the body of [for individual in all_individuals].  The second
    component is the loop variable [individual], which step 3 reads. *)
Definition step2_body (remaining_vcf_sample_ids : gset string)
    (st : gmap string SampleValue * option Individual) (individual0 : Individual)
  : M (gmap string SampleValue * option Individual) :=
  if decide (individual_id individual0 ∈ remaining_vcf_sample_ids) then
    logger_info (MatchIndividualExact (individual_id individual0));;
    let vcf_sample_id := individual_id individual0 in
    new_sample_record ←
      (if validate_only then mret Placeholder
       else s ← Sample_objects_create vcf_sample_id sample_type0 individual0;
            mret (SampleRecord s));
    mret (<[vcf_sample_id := new_sample_record]> st.1, Some individual0)
  else mret (st.1, Some individual0).

Definition step2 (vcf_sample_ids_set : gset string) (all_individuals : list Individual)
    (d : gmap string SampleValue) : M (gmap string SampleValue * option Individual) :=
  let remaining_vcf_sample_ids := vcf_sample_ids_set ∖ dom d in
  if decide (0 < size remaining_vcf_sample_ids)%nat then
    for_each (step2_body remaining_vcf_sample_ids) all_individuals (d, None)
  else mret (d, None).

(** [set(sample.individual.individual_id for sample in d.values())]: the
    string ["placeholder"] has no attribute [individual]. *)
Definition individual_ids_of_values (values : list SampleValue) : M (gset string) :=
  for_each (λ acc v,
              match v with
              | SampleRecord sample => mret (acc ∪ {[individual_id (individual sample)]})
              | Placeholder => raise AttributeError
              end) values ∅.

(** Step 3, inner loop: the body of
    [for individual_id in individual_ids_without_matching_sample_record].
    [individual_var] is the variable [individual] left by step 2. *)
Definition step3_inner_body (individual_var : option Individual) (vcf_sample_id : string)
    (c : Candidates) (individual_id0 : string) : M Candidates :=
  n ← call_compute_edit_distance vcf_sample_id individual_id0;
  if decide (Z.of_nat n < current_lowest_edit_distance c)%Z then
    individual0 ← read_local individual_var;
    mret {| current_lowest_edit_distance := Z.of_nat n;
            current_lowest_edit_distance_individual := Some [individual0] |}
  else if decide (Z.of_nat n = current_lowest_edit_distance c) then
    l ← read_local (current_lowest_edit_distance_individual c);
    individual0 ← read_local individual_var;
    mret {| current_lowest_edit_distance := current_lowest_edit_distance c;
            current_lowest_edit_distance_individual := Some (l ++ [individual0]) |}
  else mret c.

(** [s.remove(x)]. *)
Definition set_remove (x : string) (s : gset string) : M (gset string) :=
  if decide (x ∈ s) then mret (s ∖ {[x]}) else raise KeyError.

(** Step 3, outer loop: the body of
    [for vcf_sample_id in remaining_vcf_sample_ids].  The list
    [current_lowest_edit_distance_individuals] is assigned [[]] and read by
    the two tests; the inner loop assigns to another name. *)
Definition step3_outer_body (individual_var : option Individual)
    (st : FuzzyState) (vcf_sample_id : string) : M FuzzyState :=
  let current_lowest_edit_distance_individuals : list Individual := [] in
  c ← for_each (step3_inner_body individual_var vcf_sample_id)
        (iter o (individual_ids_without_matching_sample_record st))
        {| current_lowest_edit_distance := max_edit_distance;
           current_lowest_edit_distance_individual := lowest_individual_var st |};
  if decide (List.length current_lowest_edit_distance_individuals = 1) then
    individual0 ← read_local individual_var;
    logger_info (MatchIndividualFuzzy (individual_id individual0) vcf_sample_id
                   (current_lowest_edit_distance c));;
    d ← (if validate_only then mret (vcf_sample_id_to_sample_record st)
         else new_sample_record ← Sample_objects_create vcf_sample_id sample_type0 individual0;
              mret (<[vcf_sample_id := SampleRecord new_sample_record]>
                      (vcf_sample_id_to_sample_record st)));
    pool ← set_remove (individual_id individual0)
             (individual_ids_without_matching_sample_record st);
    mret {| vcf_sample_id_to_sample_record := d;
            individual_ids_without_matching_sample_record := pool;
            lowest_individual_var := current_lowest_edit_distance_individual c |}
  else if decide (1 ≤ List.length current_lowest_edit_distance_individuals)%nat then
    logger_info (NoMatchMultiple vcf_sample_id
                   (individual_id <$> current_lowest_edit_distance_individuals));;
    mret {| vcf_sample_id_to_sample_record := vcf_sample_id_to_sample_record st;
            individual_ids_without_matching_sample_record :=
              individual_ids_without_matching_sample_record st;
            lowest_individual_var := current_lowest_edit_distance_individual c |}
  else
    mret {| vcf_sample_id_to_sample_record := vcf_sample_id_to_sample_record st;
            individual_ids_without_matching_sample_record :=
              individual_ids_without_matching_sample_record st;
            lowest_individual_var := current_lowest_edit_distance_individual c |}.

Definition step3 (vcf_sample_ids_set : gset string) (all_individuals : list Individual)
    (st : gmap string SampleValue * option Individual) : M (gmap string SampleValue) :=
  let remaining_vcf_sample_ids := vcf_sample_ids_set ∖ dom st.1 in
  if decide (0 < size remaining_vcf_sample_ids)%nat then
    individual_ids_with_matching_sample_record ←
      individual_ids_of_values (map_to_list st.1).*2;
    let pool : gset string :=
      list_to_set (individual_id <$> all_individuals)
        ∖ individual_ids_with_matching_sample_record in
    if decide ((0 < max_edit_distance)%Z ∧ remaining_vcf_sample_ids ≠ ∅ ∧ pool ≠ ∅) then
      st' ← for_each (step3_outer_body st.2) (iter o remaining_vcf_sample_ids)
              {| vcf_sample_id_to_sample_record := st.1;
                 individual_ids_without_matching_sample_record := pool;
                 lowest_individual_var := None |};
      mret (vcf_sample_id_to_sample_record st')
    else mret st.1
  else mret st.1.

(** The statistics logged before returning. *)
Definition print_stats (vcf_sample_ids_set : gset string) (d : gmap string SampleValue)
  : M unit :=
  (if decide (size d ≠ 0) then logger_info (StatsMatched (size d)) else mret ());;
  let remaining_vcf_sample_ids := vcf_sample_ids_set ∖ dom d in
  if decide (size remaining_vcf_sample_ids ≠ 0)
  then logger_info (StatsUnmatched (size remaining_vcf_sample_ids))
  else mret ().

Definition _match_vcf_id_to_sample_id (vcf_sample_ids : list string)
  : M (gmap string SampleValue) :=
  logger_info (SampleIdsFound (List.length vcf_sample_ids) vcf_sample_ids);;
  let vcf_sample_ids_set : gset string := list_to_set vcf_sample_ids in
  d ← step1 vcf_sample_ids_set;
  all_individuals ← Individual_objects_filter project0;
  st ← step2 vcf_sample_ids_set all_individuals d;
  d ← step3 vcf_sample_ids_set all_individuals st;
  print_stats vcf_sample_ids_set d;;
  mret d.

End Matcher.

(** ** Dataset lookup and linking: the end of [Command.handle] *)

(** The filter [analysis_type=..., source_file_path=...,
    samples__individual__family__project=project]: the join keeps a dataset
    that has at least one sample of the project. *)
Definition dataset_matches (analysis_type0 vcf_path project0 : string) (d : Dataset) : Prop :=
  analysis_type d = analysis_type0 ∧ source_file_path d = vcf_path
  ∧ Exists (λ s, in_project project0 (individual s)) (samples d).

#[global] Instance dataset_matches_dec a p q d : Decision (dataset_matches a p q d).
Proof. unfold dataset_matches. apply _. Defined.

(** [Dataset.objects.get(id__in=Dataset.objects.filter(...).values_list('id', flat=True))]. *)
Definition Dataset_objects_get (analysis_type0 vcf_path project0 : string) : M Dataset := λ w,
  let ids := dataset_id <$> filter (dataset_matches analysis_type0 vcf_path project0)
                                   (db_datasets w) in
  match filter (λ d, dataset_id d ∈ ids) (db_datasets w) with
  | [] => (Raise ObjectDoesNotExist, w)
  | [d] => (Return d, w)
  | _ => (Raise MultipleObjectsReturned, w)
  end.

Definition fresh_dataset_id (rows : list Dataset) : nat :=
  S (foldr Nat.max 0 (dataset_id <$> rows)).

(** [dataset.samples.add(sample)] on the many-to-many relation: a sample that
    is already linked (same primary key) is not linked again; anything that
    is not a Sample is refused. *)
Definition add_sample (s : Sample) (d : Dataset) : Dataset :=
  {| dataset_id := dataset_id d; analysis_type := analysis_type d;
     source_file_path := source_file_path d; is_loaded := is_loaded d;
     samples := if decide (sample_pk s ∈ sample_pk <$> samples d)
                then samples d else samples d ++ [s] |}.

Definition samples_add (dataset_id0 : nat) (v : SampleValue) : M unit :=
  match v with
  | Placeholder => raise TypeError
  | SampleRecord s => λ w,
      (Return (),
       {| db_individuals := db_individuals w; db_samples := db_samples w;
          db_datasets :=
            (λ d, if decide (dataset_id d = dataset_id0) then add_sample s d else d)
              <$> db_datasets w;
          log := log w; compared := compared w |})
  end.

(** [_load_dataset(dataset)]: prints and does nothing else. *)
Definition _load_dataset (dataset : Dataset) : M unit :=
  logger_info (LoadingDataset (dataset_id dataset)).

(** The variable [vcf_sample_ids] of [handle]: the list read from the VCF
    header, or, once a Dataset was found, the set of the dict's keys. *)
Inductive IdsVar :=
| IdList (l : list string)
| IdSet (s : gset string).

Definition len_ids (v : IdsVar) : nat :=
  match v with IdList l => List.length l | IdSet s => size s end.

Definition set_ids (v : IdsVar) : gset string :=
  match v with IdList l => list_to_set l | IdSet s => s end.

Section Handle.

Variable o : SetOrder.

(** Declared in [seqr.models] and [seqr.views.apis.individual_api], outside
    the command: the constant [Dataset.ANALYSIS_TYPE_VARIANT_CALLS], the
    default of the field [Dataset.is_loaded], and the helper that creates or
    updates Individual and Family rows of a project for a list of ids. *)
Variable ANALYSIS_TYPE_VARIANT_CALLS : string.
Variable is_loaded_default : bool.
Variable add_or_update_individuals_and_families :
  string → list string → list Individual → list Individual.

Variables (project0 sample_type0 vcf_path : string).
Variables (validate_only : bool) (max_edit_distance : Z).

(** The answer typed at the prompt of [ask_yes_no_question]. *)
Variable responded_yes : bool.

(** [Dataset.objects.create(analysis_type=..., source_file_path=...)]. *)
Definition Dataset_objects_create (analysis_type0 vcf_path0 : string) : M Dataset := λ w,
  let d := {| dataset_id := fresh_dataset_id (db_datasets w);
              analysis_type := analysis_type0; source_file_path := vcf_path0;
              is_loaded := is_loaded_default; samples := [] |} in
  (Return d,
   {| db_individuals := db_individuals w; db_samples := db_samples w;
      db_datasets := db_datasets w ++ [d]; log := log w; compared := compared w |}).

Definition provision (sample_ids : list string) : M unit := λ w,
  (Return (),
   {| db_individuals :=
        add_or_update_individuals_and_families project0 sample_ids (db_individuals w);
      db_samples := db_samples w; db_datasets := db_datasets w;
      log := log w; compared := compared w |}).

(** Lines 71-87: [None] stands for the [return] inside the [try]; otherwise
    the value of the variable [vcf_sample_ids] afterwards. *)
Definition check_already_loaded (vcf_sample_ids : list string)
    (d : gmap string SampleValue) : M (option IdsVar) :=
  try_except
    (dataset ← Dataset_objects_get ANALYSIS_TYPE_VARIANT_CALLS vcf_path project0;
     let vcf_sample_ids_set : gset string := dom d in
     let existing_sample_ids : gset string := list_to_set (sample_id <$> samples dataset) in
     if decide (is_loaded dataset = true
                ∧ size (vcf_sample_ids_set ∖ existing_sample_ids) = 0)
     then logger_info (AlreadyLoaded (size vcf_sample_ids_set));; mret None
     else mret (Some (IdSet vcf_sample_ids_set)))
    ObjectDoesNotExist
    (mret (Some (IdList vcf_sample_ids))).

(** Lines 92-98. *)
Definition offer_extra_samples (vcf_sample_ids : IdsVar) (d : gmap string SampleValue)
  : M unit :=
  if decide (size d < len_ids vcf_sample_ids)%nat then
    if responded_yes then provision (iter o (set_ids vcf_sample_ids ∖ dom d))
    else mret ()
  else mret ().

(** Lines 100-120. *)
Definition create_and_link (d : gmap string SampleValue) : M unit :=
  if decide (0 < size d)%nat then
    dataset ← try_except
      (Dataset_objects_get ANALYSIS_TYPE_VARIANT_CALLS vcf_path project0)
      ObjectDoesNotExist
      (logger_info (CreatedDataset ANALYSIS_TYPE_VARIANT_CALLS vcf_path);;
       Dataset_objects_create ANALYSIS_TYPE_VARIANT_CALLS vcf_path);
    for_each (λ _ kv, samples_add (dataset_id dataset) kv.2) (map_to_list d) ();;
    _load_dataset dataset
  else mret ().

(** Lines 71-120 of [handle], given the dict the matcher returned. *)
Definition link_dataset (vcf_sample_ids : list string) (d : gmap string SampleValue)
  : M unit :=
  ids ← check_already_loaded vcf_sample_ids d;
  match ids with
  | None => mret ()
  | Some vcf_sample_ids' =>
      if validate_only then mret ()
      else offer_extra_samples vcf_sample_ids' d;; create_and_link d
  end.

(** [handle] from line 63 on, given the sample ids [_validate_vcf] read from
    the header of the file. *)
Definition handle (vcf_sample_ids : list string) : M unit :=
  d ← _match_vcf_id_to_sample_id o project0 sample_type0 validate_only max_edit_distance
        vcf_sample_ids;
  link_dataset vcf_sample_ids d.

End Handle.

(** ** Notions the statements use *)

(** [extends Ps Pl Pc w w']: from [w] to [w'] the Individual and Dataset
    tables are unchanged, and the Sample table, the log and the trace have
    only grown, by entries satisfying [Ps], [Pl] and [Pc]. *)
Record extends (Ps : Sample → Prop) (Pl : LogMsg → Prop) (Pc : string * string → Prop)
    (w w' : World) : Prop := {
  ext_individuals : db_individuals w' = db_individuals w;
  ext_datasets : db_datasets w' = db_datasets w;
  ext_samples : ∃ new, db_samples w' = db_samples w ++ new ∧ Forall Ps new;
  ext_log : ∃ new, log w' = log w ++ new ∧ Forall Pl new;
  ext_compared : ∃ new, compared w' = compared w ++ new ∧ Forall Pc new
}.

(** What a run appended to the Sample table, the log and the trace. *)
Definition new_samples (w w' : World) : list Sample :=
  drop (List.length (db_samples w)) (db_samples w').

Definition new_log (w w' : World) : list LogMsg :=
  drop (List.length (log w)) (log w').

Definition new_compared (w w' : World) : list (string * string) :=
  drop (List.length (compared w)) (compared w').

(** The individual ids of the fuzzy matches a log reports. *)
Definition fuzzy_targets (l : list LogMsg) : list string :=
  omap (λ msg, match msg with
               | MatchIndividualFuzzy i _ _ => Some i
               | _ => None
               end) l.

(** The existing samples the matcher consults in step 1. *)
Definition existing_samples_of_this_type (project0 sample_type0 : string) (w : World)
  : gmap string Sample :=
  sample_id_dict
    (filter (λ s, in_project project0 (individual s) ∧ sample_type s = sample_type0)
            (db_samples w)).

(** The individuals of the project. *)
Definition all_individuals_of (project0 : string) (w : World) : list Individual :=
  filter (in_project project0) (db_individuals w).

(** [hoare Ps Pl Pc Q E m]: every run of [m] extends the world within the
    frame [Ps], [Pl], [Pc]; a returned value satisfies [Q] and a raised
    exception satisfies [E]. *)
Definition hoare {A} (Ps : Sample → Prop) (Pl : LogMsg → Prop) (Pc : string * string → Prop)
    (Q : A → Prop) (E : exn → Prop) (m : M A) : Prop :=
  ∀ w, extends Ps Pl Pc w (m w).2
       ∧ match (m w).1 with Return a => Q a | Raise e => E e end.

(** What step 2 stores for the vcf id [k]: the placeholder in a
    validate-only run, otherwise a new Sample of an individual of [l] whose
    individual id is [k]. *)
Definition step2_value (validate_only : bool) (sample_type0 : string)
    (l : list Individual) (k : string) (v : SampleValue) : Prop :=
  if validate_only then v = Placeholder
  else ∃ s, v = SampleRecord s ∧ sample_id s = k ∧ sample_type s = sample_type0
            ∧ individual s ∈ l ∧ individual_id (individual s) = k.

(** The Samples step 2 creates and the lines it logs, for the remaining ids
    [R] and the individuals [l]. *)
Definition step2_sample (validate_only : bool) (sample_type0 : string) (R : gset string)
    (l : list Individual) (s : Sample) : Prop :=
  validate_only = false ∧ sample_id s ∈ R ∧ sample_type s = sample_type0
  ∧ individual s ∈ l ∧ individual_id (individual s) = sample_id s.

Definition step2_log (R : gset string) (l : list Individual) (m : LogMsg) : Prop :=
  ∃ i, i ∈ l ∧ individual_id i ∈ R ∧ m = MatchIndividualExact (individual_id i).

(** The values of a dict, and whether it holds the placeholder. *)
Definition dict_values (d : gmap string SampleValue) : list SampleValue :=
  (map_to_list d).*2.

Definition has_placeholder (d : gmap string SampleValue) : Prop :=
  ∃ k, d !! k = Some Placeholder.

(** The pairs step 3 may compare: a vcf id that is still unmatched with an
    individual id of the project that no Sample of the dict belongs to; and
    it compares only when the threshold is positive and the dict holds no
    placeholder. *)
Definition step3_pair (max_edit_distance : Z) (X : gset string)
    (all_individuals : list Individual) (d : gmap string SampleValue)
    (p : string * string) : Prop :=
  p.1 ∈ X ∖ dom d
  ∧ p.2 ∈ individual_id <$> all_individuals
  ∧ (∀ k s, d !! k = Some (SampleRecord s) → individual_id (individual s) ≠ p.2)
  ∧ ¬ has_placeholder d
  ∧ (0 < max_edit_distance)%Z.

(** The lines the matcher logs: those of step 2, and otherwise no line that
    reports a match on an individual or an ambiguity. *)
Definition matcher_log (R : gset string) (l : list Individual) (m : LogMsg) : Prop :=
  step2_log R l m
  ∨ ((∀ i, m ≠ MatchIndividualExact i)
     ∧ (∀ i v n, m ≠ MatchIndividualFuzzy i v n)
     ∧ (∀ v ids, m ≠ NoMatchMultiple v ids)).

(** The dict after step 1: the vcf ids of [X] that are sample ids of [ex]. *)
Definition after_step1 (X : gset string) (ex : gmap string Sample)
    (d1 : gmap string SampleValue) : Prop :=
  ∀ k, d1 !! k = if decide (k ∈ X) then SampleRecord <$> ex !! k else None.

(** The dict after step 2, from the dict [d1] after step 1. *)
Definition after_step2 (validate_only : bool) (sample_type0 : string) (X : gset string)
    (l : list Individual) (d1 d2 : gmap string SampleValue) : Prop :=
  (∀ k, k ∈ X ∖ dom d1 → k ∈ individual_id <$> l →
        ∃ v, d2 !! k = Some v ∧ step2_value validate_only sample_type0 l k v)
  ∧ (∀ k, ¬ (k ∈ X ∖ dom d1 ∧ k ∈ individual_id <$> l) → d2 !! k = d1 !! k).

(** How step 3 ends, from the dict [d2] after step 2: it returns [d2]
    itself, or raises. *)
Definition after_step3 (max_edit_distance : Z) (X : gset string)
    (d2 : gmap string SampleValue) (r : result (gmap string SampleValue)) : Prop :=
  match r with
  | Return d => d = d2 ∧ (X ∖ dom d2 ≠ ∅ → ¬ has_placeholder d2)
  | Raise e =>
      X ∖ dom d2 ≠ ∅
      ∧ (e = AttributeError ∧ has_placeholder d2
         ∨ e = UnboundLocalError ∧ ¬ has_placeholder d2 ∧ (0 < max_edit_distance)%Z)
  end.

(** The individual ids of the Samples a dict holds. *)
Definition individual_ids_with_record (d : gmap string SampleValue) : gset string :=
  list_to_set
    (omap (λ v, match v with
                | SampleRecord s => Some (individual_id (individual s))
                | Placeholder => None
                end) (dict_values d)).

(** Two worlds with the same three tables (their logs and traces may
    differ). *)
Definition same_tables (w w' : World) : Prop :=
  db_individuals w = db_individuals w' ∧ db_samples w = db_samples w'
  ∧ db_datasets w = db_datasets w'.

(** ** Worlds of the scenarios *)

(** An individual of project ["P"], alone in a family named after it. *)
Definition individual_of (id0 : string) : Individual :=
  {| individual_id := id0; family := {| family_id := id0; project := "P" |} |}.

(** A project with the given individuals and no samples or datasets yet. *)
Definition project_world (ids : list string) : World :=
  {| db_individuals := individual_of <$> ids; db_samples := []; db_datasets := [];
     log := []; compared := [] |}.

(** The Sample the matcher creates for the individual [id0] under the key
    [pk]. *)
Definition sample_of (pk : nat) (id0 : string) : Sample :=
  {| sample_pk := pk; sample_id := id0; sample_type := "WES";
     individual := individual_of id0 |}.

(** A project where individual ["I1"] already has the WES sample ["S1"]. *)
Definition sampled_world : World :=
  {| db_individuals := [individual_of "I1"; individual_of "I2"];
     db_samples := [ {| sample_pk := 7; sample_id := "S1"; sample_type := "WES";
                        individual := individual_of "I1" |} ];
     db_datasets := []; log := []; compared := [] |}.

(** A project where the dataset of ["a.vcf"] is loaded and linked to the
    sample ["S1"] of individual ["I1"]. *)
Definition loaded_world : World :=
  {| db_individuals := [individual_of "I1"];
     db_samples := [ {| sample_pk := 7; sample_id := "S1"; sample_type := "WES";
                        individual := individual_of "I1" |} ];
     db_datasets := [ {| dataset_id := 3; analysis_type := "VARIANTS";
                         source_file_path := "a.vcf"; is_loaded := true;
                         samples := [ {| sample_pk := 7; sample_id := "S1";
                                         sample_type := "WES";
                                         individual := individual_of "I1" |} ] |} ];
     log := []; compared := [] |}.

(** ** The Dataset table after linking *)

(** The rows [Dataset.objects.get] selects on a Dataset table, and what it
    answers. *)
Definition selected (analysis_type0 vcf_path project0 : string) (rows : list Dataset)
  : list Dataset :=
  filter (λ d, dataset_id d ∈ dataset_id <$> filter
                 (dataset_matches analysis_type0 vcf_path project0) rows) rows.

Definition get_result (analysis_type0 vcf_path project0 : string) (rows : list Dataset)
  : result Dataset :=
  match selected analysis_type0 vcf_path project0 rows with
  | [] => Raise ObjectDoesNotExist
  | [d] => Return d
  | _ => Raise MultipleObjectsReturned
  end.

(** Linking the samples [vals], one after the other, to a dataset row, and
    to the rows with the primary key [id0] of a table. *)
Definition add_samples (vals : list Sample) (row : Dataset) : Dataset :=
  foldl (λ r s, add_sample s r) row vals.

Definition link_rows (id0 : nat) (vals : list Sample) (rows : list Dataset) : list Dataset :=
  (λ r, if decide (dataset_id r = id0) then add_samples vals r else r) <$> rows.

(** The Samples of a dict, in the order its items are visited. *)
Definition dict_samples (d : gmap string SampleValue) : list Sample :=
  omap (λ kv : string * SampleValue,
          match kv.2 with SampleRecord s => Some s | Placeholder => None end)
       (map_to_list d).

(** Every value of the dict is a Sample of an individual of the project. *)
Definition samples_of_project (project0 : string) (d : gmap string SampleValue) : Prop :=
  ∀ k v, d !! k = Some v → ∃ s, v = SampleRecord s ∧ in_project project0 (individual s).

(** The test of line 82. *)
Definition already_loaded (d : gmap string SampleValue) (dataset : Dataset) : Prop :=
  is_loaded dataset = true
  ∧ size (dom d ∖ (list_to_set (sample_id <$> samples dataset) : gset string)) = 0.

#[global] Instance already_loaded_dec d dataset : Decision (already_loaded d dataset).
Proof. unfold already_loaded. apply _. Defined.

(** The Dataset table that [link_dataset] leaves, as a function of the table
    it finds. *)
Definition linked_datasets (analysis_type0 : string) (is_loaded_default : bool)
    (project0 vcf_path : string) (validate_only : bool) (d : gmap string SampleValue)
    (rows : list Dataset) : list Dataset :=
  match get_result analysis_type0 vcf_path project0 rows with
  | Return dataset =>
      if decide (already_loaded d dataset) then rows
      else if validate_only then rows
      else if decide (0 < size d)%nat
           then link_rows (dataset_id dataset) (dict_samples d) rows
           else rows
  | Raise ObjectDoesNotExist =>
      if validate_only then rows
      else if decide (0 < size d)%nat
           then link_rows (fresh_dataset_id rows) (dict_samples d)
                  (rows ++ [ {| dataset_id := fresh_dataset_id rows;
                                analysis_type := analysis_type0;
                                source_file_path := vcf_path;
                                is_loaded := is_loaded_default; samples := [] |} ])
           else rows
  | Raise _ => rows
  end.

(** ** The distances of the fuzzy stage *)

(** The distances step 3 computes for the unmatched vcf ids [R] and the pool
    of individual ids, in the order it computes them. *)
Definition fuzzy_distances (o : SetOrder) (R pool : gset string) : list nat :=
  v ← iter o R; EditDistance.compute_edit_distance v <$> iter o pool.

(** The first distance of a list that is not above the threshold. *)
Definition first_within (max_edit_distance : Z) (ns : list nat) : option nat :=
  head (filter (λ n, (Z.of_nat n ≤ max_edit_distance)%Z) ns).
(** ** The rows of the edit-distance sweep *)

(** The comparison [target != s] at one position. *)
Definition ne (c s : ascii) : nat := if decide (c = s) then 0 else 1.

(** [current_row] after the substitution assignment of the loop body. *)
Definition sub_row (target : list ascii) (previous_row : list nat) (s : ascii)
  : list nat :=
  let current_row := EditDistance.np_add1 previous_row in
  EditDistance.assign_from_1 current_row
    (EditDistance.np_minimum (drop 1 current_row)
       (EditDistance.np_add (removelast previous_row)
          (EditDistance.np_not_equal target s))).

(** The deletion assignment of the loop body. *)
Definition del_row (current_row : list nat) : list nat :=
  EditDistance.assign_from_1 current_row
    (EditDistance.np_minimum (drop 1 current_row)
       (EditDistance.np_add1 (removelast current_row))).

(** [previous_row] once the characters of [source] have gone through the
    loop. *)
Definition rows_after (target source : list ascii) : list nat :=
  fold_left (EditDistance.row_step target) source
    (EditDistance.np_arange (List.length target + 1)).

Definition row_forall (P : nat → nat → Prop) (row : list nat) : Prop :=
  ∀ j x, row !! j = Some x → P j x.

(** What holds of entry [j] of the row after [source]. *)
Definition row_inv (source target : list ascii) (j x : nat) : Prop :=
  (List.length source ≤ x + j ∧ j ≤ x + List.length source
   ∧ x ≤ Nat.max (List.length source) j
   ∧ EditDistance.lev source (take j target) ≤ x)%nat.

(** ** The front of the command: project lookup and [_validate_vcf] *)

(** The fields of a Project row the command reads.  A Family names its
    project by this [guid]. *)
Record Project := { guid : string; genome_build_id : string }.

(** What the whole command can raise: Django's [CommandError], [ValueError],
    and the exceptions of the part from the matcher on. *)
Inductive command_exn :=
| CommandError
| ValueError
| Uncaught (e : exn).

Inductive outcome (A : Type) :=
| Done (a : A)
| Failed (e : command_exn).
Arguments Done {A} a.
Arguments Failed {A} e.

Definition tab : ascii := ascii_of_nat 9.

(** [s.split('\t')]. *)
Fixpoint split_tab (s : string) : list string :=
  match s with
  | EmptyString => [EmptyString]
  | String c s' =>
      if decide (c = tab) then EmptyString :: split_tab s'
      else match split_tab s' with
           | f :: fs => String c f :: fs
           | [] => [String c EmptyString]
           end
  end.

(** ['\t'.join(fields)], to state what the split fields add up to. *)
Fixpoint join_tab (fields : list string) : string :=
  match fields with
  | [] => EmptyString
  | f :: fs =>
      match fs with
      | [] => f
      | _ :: _ => f +:+ String tab (join_tab fs)
      end
  end.

(** [Project.objects.get(guid=project_guid)] on the Project table. *)
Definition Project_objects_get (projects : list Project) (project_guid : string)
  : result Project :=
  match filter (λ p, guid p = project_guid) projects with
  | [] => Raise ObjectDoesNotExist
  | [p] => Return p
  | _ => Raise MultipleObjectsReturned
  end.

(** A run of the part from the matcher on, as a run of the command. *)
Definition run_rest {A} (m : M A) (w : World) : outcome A * World :=
  match m w with
  | (Return a, w') => (Done a, w')
  | (Raise e, w') => (Failed (Uncaught e), w')
  end.

Section Command.

Variable o : SetOrder.
Variable ANALYSIS_TYPE_VARIANT_CALLS : string.
Variable is_loaded_default : bool.
Variable add_or_update_individuals_and_families :
  string → list string → list Individual → list Individual.
Variable responded_yes : bool.

(** The Project table, which the command only reads. *)
Variable projects : list Project.

(** Outside the command: [does_file_exist] and [read_header] of
    [seqr.utils.gcloud_utils] (the latter taken to return the header line as
    a string), [os.path.isfile], and [str.strip]. *)
Variable does_file_exist : string → bool.
Variable read_header : string → string.
Variable os_path_isfile : string → bool.
Variable strip : string → string.

(** Lines 127-133: the local variable [header_content] afterwards, assigned
    in the [gs://] branch only. *)
Definition locate_header (vcf_path : string) : outcome (option string) :=
  if String.prefix "gs://" vcf_path then
    if does_file_exist vcf_path then Done (Some (read_header vcf_path))
    else Failed ValueError
  else
    if os_path_isfile vcf_path then Done None
    else Failed ValueError.

(** [_validate_vcf(vcf_path)] on a [str] argument, which is what the argument
    parser passes; [sample_type] and [genome_build] are not read. *)
Definition _validate_vcf (vcf_path : string) : outcome (list string) :=
  if decide (vcf_path = EmptyString) then Failed CommandError
  else
    match locate_header vcf_path with
    | Failed e => Failed e
    | Done None => Failed (Uncaught UnboundLocalError)
    | Done (Some header_content) =>
        let header_fields := split_tab (strip header_content) in
        let sample_ids := drop 9 header_fields in
        Done sample_ids
    end.

(** [Command.handle], lines 39-120. *)
Definition Command_handle (sample_type0 genome_build : string) (validate_only : bool)
    (max_edit_distance : Z) (project_guid vcf_path : string) (w : World)
  : outcome unit * World :=
  match Project_objects_get projects project_guid with
  | Raise ObjectDoesNotExist => (Failed CommandError, w)
  | Raise e => (Failed (Uncaught e), w)
  | Return project0 =>
      if decide (genome_build_id project0 ≠ genome_build) then (Failed CommandError, w)
      else
        match _validate_vcf vcf_path with
        | Failed e => (Failed e, w)
        | Done vcf_sample_ids =>
            run_rest
              (handle o ANALYSIS_TYPE_VARIANT_CALLS is_loaded_default
                 add_or_update_individuals_and_families (guid project0) sample_type0
                 vcf_path validate_only max_edit_distance responded_yes vcf_sample_ids) w
        end
  end.

End Command.

(** The header line of a VCF with the given sample columns. *)
Definition vcf_header (sample_ids : list string) : string :=
  join_tab (["#CHROM"; "POS"; "ID"; "REF"; "ALT"; "QUAL"; "FILTER"; "INFO"; "FORMAT"]
            ++ sample_ids).

(** ** The lines the matcher logs *)

(** The statistics lines for the vcf ids [X] and the dict [d]. *)
Definition stats_lines (X : gset string) (d : gmap string SampleValue) : list LogMsg :=
  (if decide (size d ≠ 0) then [StatsMatched (size d)] else [])
  ++ (if decide (size (X ∖ dom d) ≠ 0) then [StatsUnmatched (size (X ∖ dom d))] else []).

(** A line that reports an exact match, of step 1 or of step 2. *)
Definition exact_match_line (m : LogMsg) : Prop :=
  (∃ v, m = MatchExistingSample v) ∨ (∃ i, m = MatchIndividualExact i).


(** * Properties *)

(** ** Edit distance *)

Section EditDistanceFacts.

Import EditDistance.

Lemma sweep_empty_target (source : list ascii) : sweep source [] = List.length source.
Proof. reflexivity. Qed.

(** Against the empty string the function returns the length of the other
    argument, on either side. *)
Lemma compute_edit_distance_empty_r (s : string) :
  compute_edit_distance s "" = String.length s.
Proof.
  unfold compute_edit_distance. simpl.
  rewrite sweep_empty_target. induction s; simpl; congruence.
Qed.

Lemma compute_edit_distance_empty_l (s : string) :
  compute_edit_distance "" s = String.length s.
Proof.
  unfold compute_edit_distance. simpl.
  assert (Hlen : List.length (list_ascii_of_string s) = String.length s)
    by (induction s; simpl; congruence).
  case_decide as Hge.
  - rewrite sweep_empty_target. exact Hlen.
  - assert (String.length s = 0) as H0 by lia.
    destruct s; [reflexivity | discriminate].
Qed.

(** C10 (the code departs from it): on ["aabba"] and ["bbacc"] the sweep
    returns 5 where the Levenshtein distance is 4, and with the arguments
    exchanged it returns 4, so the function is not symmetric either.  The
    third assignment of [row_step] takes the minimum with the left neighbour
    as it was before the assignment, so a run of two deletions in one row is
    never counted. *)
Theorem compute_edit_distance_not_levenshtein :
  compute_edit_distance "aabba" "bbacc" = 5
  ∧ levenshtein "aabba" "bbacc" = 4
  ∧ compute_edit_distance "bbacc" "aabba" = 4.
Proof. repeat split; vm_compute; reflexivity. Qed.

End EditDistanceFacts.

(** ** The monad and the frame of a command *)

Section Frame.

Lemma bind_run {A B} (m : M A) (f : A → M B) (w : World) :
  (m ≫= f) w = match m w with
               | (Return a, w') => f a w'
               | (Raise e, w') => (Raise e, w')
               end.
Proof. reflexivity. Qed.

Lemma extends_refl Ps Pl Pc w : extends Ps Pl Pc w w.
Proof.
  split; try reflexivity; exists []; rewrite app_nil_r; split; auto.
Qed.

Lemma extends_trans Ps Pl Pc w1 w2 w3 :
  extends Ps Pl Pc w1 w2 → extends Ps Pl Pc w2 w3 → extends Ps Pl Pc w1 w3.
Proof.
  intros [Hi1 Hd1 (s1 & Hs1 & Fs1) (l1 & Hl1 & Fl1) (c1 & Hc1 & Fc1)]
         [Hi2 Hd2 (s2 & Hs2 & Fs2) (l2 & Hl2 & Fl2) (c2 & Hc2 & Fc2)].
  split; try congruence.
  - exists (s1 ++ s2). rewrite Hs2, Hs1, app_assoc. split; [done | by apply Forall_app].
  - exists (l1 ++ l2). rewrite Hl2, Hl1, app_assoc. split; [done | by apply Forall_app].
  - exists (c1 ++ c2). rewrite Hc2, Hc1, app_assoc. split; [done | by apply Forall_app].
Qed.

Lemma extends_mono (Ps Ps' : Sample → Prop) (Pl Pl' : LogMsg → Prop)
    (Pc Pc' : string * string → Prop) w w' :
  (∀ s, Ps s → Ps' s) → (∀ m, Pl m → Pl' m) → (∀ p, Pc p → Pc' p) →
  extends Ps Pl Pc w w' → extends Ps' Pl' Pc' w w'.
Proof.
  intros Hs Hl Hc [Hi Hd (s & ? & Fs) (l & ? & Fl) (c & ? & Fc)].
  split; auto.
  - exists s. split; [done | eapply Forall_impl; eauto].
  - exists l. split; [done | eapply Forall_impl; eauto].
  - exists c. split; [done | eapply Forall_impl; eauto].
Qed.

Lemma extends_new_samples Ps Pl Pc w w' :
  extends Ps Pl Pc w w' →
  db_samples w' = db_samples w ++ new_samples w w' ∧ Forall Ps (new_samples w w').
Proof.
  intros [_ _ (s & Hs & Fs) _ _]. unfold new_samples.
  rewrite Hs, drop_app_length. done.
Qed.

Lemma extends_new_log Ps Pl Pc w w' :
  extends Ps Pl Pc w w' → log w' = log w ++ new_log w w' ∧ Forall Pl (new_log w w').
Proof.
  intros [_ _ _ (l & Hl & Fl) _]. unfold new_log.
  rewrite Hl, drop_app_length. done.
Qed.

Lemma extends_new_compared Ps Pl Pc w w' :
  extends Ps Pl Pc w w' →
  compared w' = compared w ++ new_compared w w' ∧ Forall Pc (new_compared w w').
Proof.
  intros [_ _ _ _ (c & Hc & Fc)]. unfold new_compared.
  rewrite Hc, drop_app_length. done.
Qed.

Variables (Ps : Sample → Prop) (Pl : LogMsg → Prop) (Pc : string * string → Prop).

Lemma hoare_ret {A} (Q : A → Prop) E (a : A) : Q a → hoare Ps Pl Pc Q E (mret a).
Proof. intros HQ w. split; [apply extends_refl | exact HQ]. Qed.

Lemma hoare_raise {A} (Q : A → Prop) (E : exn → Prop) e :
  E e → hoare Ps Pl Pc Q E (raise e).
Proof. intros HE w. split; [apply extends_refl | exact HE]. Qed.

Lemma hoare_bind {A B} (Q1 : A → Prop) (Q : B → Prop) E (m : M A) (f : A → M B) :
  hoare Ps Pl Pc Q1 E m → (∀ a, Q1 a → hoare Ps Pl Pc Q E (f a)) →
  hoare Ps Pl Pc Q E (m ≫= f).
Proof.
  intros Hm Hf w. rewrite bind_run. destruct (Hm w) as [Hext Hres].
  destruct (m w) as [[a|e] w1]; simpl in *; [|done].
  destruct (Hf a Hres w1) as [Hext' Hres'].
  split; [eapply extends_trans; eauto | done].
Qed.

Lemma hoare_for_each {A S} (I : S → Prop) (P : A → Prop) E (body : S → A → M S) l :
  Forall P l → (∀ s x, I s → P x → hoare Ps Pl Pc I E (body s x)) →
  ∀ s, I s → hoare Ps Pl Pc I E (for_each body l s).
Proof.
  intros Hl Hbody. induction Hl as [|x l Hx Hl IH]; intros s Hs; simpl.
  - by apply hoare_ret.
  - eapply hoare_bind; [by apply Hbody | exact IH].
Qed.

Lemma hoare_read_local {A} (Q : A → Prop) (E : exn → Prop) (x : option A) :
  (∀ a, x = Some a → Q a) → (x = None → E UnboundLocalError) →
  hoare Ps Pl Pc Q E (read_local x).
Proof. destruct x; intros; [apply hoare_ret | apply hoare_raise]; auto. Qed.

Lemma hoare_logger_info (Q : unit → Prop) E msg :
  Pl msg → Q () → hoare Ps Pl Pc Q E (logger_info msg).
Proof.
  intros Hmsg HQ w. split; [|exact HQ]. split; simpl; try reflexivity.
  - exists []. by rewrite app_nil_r.
  - exists [msg]. auto.
  - exists []. by rewrite app_nil_r.
Qed.

Lemma hoare_call_compute_edit_distance (Q : nat → Prop) E v i :
  Pc (v, i) → Q (EditDistance.compute_edit_distance v i) →
  hoare Ps Pl Pc Q E (call_compute_edit_distance v i).
Proof.
  intros Hp HQ w. split; [|exact HQ]. split; simpl; try reflexivity.
  - exists []. by rewrite app_nil_r.
  - exists []. by rewrite app_nil_r.
  - exists [(v, i)]. auto.
Qed.

Lemma hoare_Sample_objects_create (Q : Sample → Prop) E sid ty ind :
  (∀ pk, Ps {| sample_pk := pk; sample_id := sid; sample_type := ty; individual := ind |}) →
  (∀ pk, Q {| sample_pk := pk; sample_id := sid; sample_type := ty; individual := ind |}) →
  hoare Ps Pl Pc Q E (Sample_objects_create sid ty ind).
Proof.
  intros Hs HQ w. split; [|apply HQ]. split; simpl; try reflexivity.
  - eexists [_]. split; [reflexivity | auto].
  - exists []. by rewrite app_nil_r.
  - exists []. by rewrite app_nil_r.
Qed.

Lemma hoare_set_remove (Q : gset string → Prop) (E : exn → Prop) x s :
  (x ∈ s → Q (s ∖ {[x]})) → (x ∉ s → E KeyError) →
  hoare Ps Pl Pc Q E (set_remove x s).
Proof.
  intros HQ HE. unfold set_remove. case_decide; [apply hoare_ret | apply hoare_raise]; auto.
Qed.

End Frame.

Lemma hoare_conseq {A} (Ps Ps' : Sample → Prop) (Pl Pl' : LogMsg → Prop)
    (Pc Pc' : string * string → Prop) (Q Q' : A → Prop) (E E' : exn → Prop) (m : M A) :
  hoare Ps Pl Pc Q E m →
  (∀ s, Ps s → Ps' s) → (∀ x, Pl x → Pl' x) → (∀ p, Pc p → Pc' p) →
  (∀ a, Q a → Q' a) → (∀ e, E e → E' e) →
  hoare Ps' Pl' Pc' Q' E' m.
Proof.
  intros Hm Hs Hl Hc HQ HE w. destruct (Hm w) as [Hext Hres]. split.
  - eapply extends_mono; eauto.
  - destruct (m w).1; auto.
Qed.

(** Reading one run off a [hoare] fact. *)
Lemma hoare_run {A} Ps Pl Pc (Q : A → Prop) E (m : M A) w r w' :
  hoare Ps Pl Pc Q E m → m w = (r, w') →
  extends Ps Pl Pc w w' ∧ match r with Return a => Q a | Raise e => E e end.
Proof. intros Hm Hrun. specialize (Hm w). rewrite Hrun in Hm. exact Hm. Qed.

(** ** The three steps of the matcher *)

Section MatcherFacts.

Variable o : SetOrder.
Variables (project0 sample_type0 : string) (validate_only : bool) (max_edit_distance : Z).

Lemma elem_of_iter (X : gset string) (x : string) : x ∈ iter o X ↔ x ∈ X.
Proof. rewrite (iter_perm o X). apply elem_of_elements. Qed.

Lemma size_pos_iff (X : gset string) : 0 < size X ↔ X ≠ ∅.
Proof.
  split.
  - intros Hpos ->. rewrite size_empty in Hpos. lia.
  - intros Hne. destruct (set_choose_L X Hne) as [x Hx].
    assert (size X ≠ 0); [|lia]. apply size_non_empty_iff. set_solver.
Qed.

(** *** Step 1 *)

Lemma step1_loop (ex : gmap string Sample) (l : list string) : ∀ d,
  hoare (λ _, False) (λ m, ∃ v, m = MatchExistingSample v) (λ _, False)
    (λ d' : gmap string SampleValue, ∀ k,
       d' !! k = match ex !! k with
                 | Some r => if decide (k ∈ l) then Some (SampleRecord r) else d !! k
                 | None => d !! k
                 end)
    (λ _, False)
    (for_each (step1_body ex) l d).
Proof.
  induction l as [|x l IH]; intros d; cbn [for_each].
  - apply hoare_ret. intros k. destruct (ex !! k); [|done].
    case_decide as Hk; [by apply elem_of_nil in Hk | done].
  - eapply hoare_bind with
      (Q1 := λ d1, d1 = match ex !! x with
                        | Some r => <[x := SampleRecord r]> d
                        | None => d
                        end).
    + unfold step1_body. destruct (ex !! x) as [r|].
      * eapply hoare_bind with (Q1 := λ _, True).
        -- apply hoare_logger_info; eauto.
        -- intros _ _. by apply hoare_ret.
      * by apply hoare_ret.
    + intros d1 ->. eapply hoare_conseq; [apply IH | auto ..].
      intros d' Hd' k. rewrite Hd'. destruct (ex !! k) as [r|] eqn:Hk.
      * destruct (decide (k = x)) as [->|Hne].
        -- rewrite Hk. rewrite lookup_insert_eq.
           rewrite (decide_True (P := x ∈ x :: l)) by set_solver.
           by destruct (decide (x ∈ l)).
        -- assert (Hiff : k ∈ x :: l ↔ k ∈ l) by set_solver.
           destruct (ex !! x); [rewrite lookup_insert_ne by done|];
             repeat case_decide; tauto.
      * destruct (ex !! x) as [r|] eqn:Hx; [|done].
        rewrite lookup_insert_ne; [done | congruence].
Qed.

Lemma step1_run (X : gset string) (w : World) :
  ∃ d1 w',
    step1 o project0 sample_type0 X w = (Return d1, w')
    ∧ (∀ k, d1 !! k =
            if decide (k ∈ X)
            then SampleRecord <$> existing_samples_of_this_type project0 sample_type0 w !! k
            else None)
    ∧ extends (λ _, False) (λ m, ∃ v, m = MatchExistingSample v) (λ _, False) w w'.
Proof.
  unfold step1. rewrite bind_run. simpl.
  pose proof (step1_loop (existing_samples_of_this_type project0 sample_type0 w)
                (iter o X) ∅ w) as [Hext Hres].
  unfold existing_samples_of_this_type in *.
  destruct (for_each _ _ _ w) as [[d1|e] w'] eqn:Hrun; simpl in *; [|done].
  exists d1, w'. split; [done|]. split; [|done].
  intros k. rewrite Hres. rewrite lookup_empty.
  destruct (sample_id_dict _ !! k); simpl; repeat case_decide; try done;
    rewrite elem_of_iter in *; tauto.
Qed.

(** *** Step 2 *)

Lemma step2_value_mono l l' k v :
  l ⊆ l' → step2_value validate_only sample_type0 l k v →
  step2_value validate_only sample_type0 l' k v.
Proof.
  unfold step2_value. intros Hsub. destruct validate_only; [done|].
  intros (s & ? & ? & ? & ? & ?). exists s. set_solver.
Qed.

Lemma step2_body_spec (R : gset string) st i :
  hoare (step2_sample validate_only sample_type0 R [i]) (step2_log R [i]) (λ _, False)
    (λ st1, if decide (individual_id i ∈ R)
            then ∃ v, st1.1 = <[individual_id i := v]> st.1
                      ∧ step2_value validate_only sample_type0 [i] (individual_id i) v
            else st1.1 = st.1)
    (λ _, False)
    (step2_body sample_type0 validate_only R st i).
Proof.
  unfold step2_body. case_decide as Hin; [|by apply hoare_ret].
  eapply hoare_bind with (Q1 := λ _, True).
  { apply hoare_logger_info; [|done]. exists i. set_solver. }
  intros _ _.
  eapply hoare_bind with
    (Q1 := step2_value validate_only sample_type0 [i] (individual_id i)).
  - unfold step2_value, step2_sample. destruct validate_only.
    + by apply hoare_ret.
    + eapply hoare_bind with
        (Q1 := λ s, sample_id s = individual_id i ∧ sample_type s = sample_type0
                    ∧ individual s = i).
      * apply hoare_Sample_objects_create; intros pk; simpl; set_solver.
      * intros s (? & ? & ?). apply hoare_ret. exists s. set_solver.
  - intros v Hv. apply hoare_ret. simpl. eauto.
Qed.

Lemma step2_loop (R : gset string) (l : list Individual) : ∀ st,
  hoare (step2_sample validate_only sample_type0 R l) (step2_log R l) (λ _, False)
    (λ st', (∀ k, k ∈ R → k ∈ individual_id <$> l →
                  ∃ v, st'.1 !! k = Some v ∧ step2_value validate_only sample_type0 l k v)
            ∧ (∀ k, ¬ (k ∈ R ∧ k ∈ individual_id <$> l) → st'.1 !! k = st.1 !! k))
    (λ _, False)
    (for_each (step2_body sample_type0 validate_only R) l st).
Proof.
  induction l as [|i l IH]; intros st; cbn [for_each].
  - apply hoare_ret. split; [|done]. intros k _ Hk. rewrite fmap_nil in Hk.
    by apply elem_of_nil in Hk.
  - eapply hoare_bind with
      (Q1 := λ st1, if decide (individual_id i ∈ R)
                    then ∃ v, st1.1 = <[individual_id i := v]> st.1
                              ∧ step2_value validate_only sample_type0 [i] (individual_id i) v
                    else st1.1 = st.1).
    { eapply hoare_conseq; [apply step2_body_spec | | | done ..].
      - intros s (? & ? & ? & ? & ?). repeat split; try done. set_solver.
      - intros m (j & ? & ? & ?). exists j. split; [set_solver | done]. }
    intros st1 Hst1. eapply hoare_conseq; [apply IH | | | done | | done].
    + intros s (? & ? & ? & ? & ?). repeat split; try done. set_solver.
    + intros m (j & ? & ? & ?). exists j. split; [set_solver | done].
    + intros st' [Hin Hout]. split.
      * intros k HkR Hk. rewrite fmap_cons in Hk.
        destruct (decide (k ∈ individual_id <$> l)) as [Hkl|Hkl].
        -- destruct (Hin k HkR Hkl) as (v & ? & Hv). exists v. split; [done|].
           eapply step2_value_mono; [|exact Hv]. set_solver.
        -- assert (k = individual_id i) as -> by set_solver.
           rewrite Hout by tauto. rewrite decide_True in Hst1 by done.
           destruct Hst1 as (v & -> & Hv). exists v. rewrite lookup_insert_eq.
           split; [done|]. eapply step2_value_mono; [|exact Hv]. set_solver.
      * intros k Hk. rewrite fmap_cons in Hk. rewrite Hout by set_solver.
        case_decide as HiR; [|by rewrite Hst1].
        destruct Hst1 as (v & -> & _). rewrite lookup_insert_ne; [done|].
        intros <-. apply Hk. set_solver.
Qed.

Lemma step2_spec (X : gset string) (l : list Individual) (d : gmap string SampleValue) :
  hoare (step2_sample validate_only sample_type0 (X ∖ dom d) l)
        (step2_log (X ∖ dom d) l) (λ _, False)
    (λ st', (∀ k, k ∈ X ∖ dom d → k ∈ individual_id <$> l →
                  ∃ v, st'.1 !! k = Some v ∧ step2_value validate_only sample_type0 l k v)
            ∧ (∀ k, ¬ (k ∈ X ∖ dom d ∧ k ∈ individual_id <$> l) → st'.1 !! k = d !! k))
    (λ _, False)
    (step2 sample_type0 validate_only X l d).
Proof.
  unfold step2. case_decide as Hsize.
  - apply (step2_loop (X ∖ dom d) l (d, None)).
  - apply hoare_ret. simpl. split; [|done].
    intros k Hk. exfalso. apply Hsize, size_pos_iff. set_solver.
Qed.


(** *** Step 3 *)

Lemma elem_of_dict_values (d : gmap string SampleValue) (v : SampleValue) :
  v ∈ dict_values d ↔ ∃ k, d !! k = Some v.
Proof.
  unfold dict_values. rewrite list_elem_of_fmap. split.
  - intros ([k v'] & -> & Hkv). exists k. by apply elem_of_map_to_list.
  - intros (k & Hk). exists (k, v). split; [done | by apply elem_of_map_to_list].
Qed.

Lemma individual_ids_of_values_loop (vs : list SampleValue) : ∀ acc : gset string,
  hoare (λ _, False) (λ _, False) (λ _, False)
    (λ S : gset string,
       (Placeholder ∉ vs)
       ∧ ∀ i, i ∈ S ↔ i ∈ acc ∨ ∃ s, SampleRecord s ∈ vs ∧ individual_id (individual s) = i)
    (λ e, e = AttributeError ∧ Placeholder ∈ vs)
    (for_each (λ acc v,
                 match v with
                 | SampleRecord sample => mret (acc ∪ {[individual_id (individual sample)]})
                 | Placeholder => raise AttributeError
                 end) vs acc).
Proof.
  induction vs as [|v vs IH]; intros acc; cbn [for_each].
  - apply hoare_ret. split; [apply not_elem_of_nil|].
    intros i. split; [auto|]. intros [?|(s & Hs & _)]; [done|].
    by apply elem_of_nil in Hs.
  - destruct v as [s|].
    + eapply hoare_bind with (Q1 := λ a, a = acc ∪ {[individual_id (individual s)]}).
      { by apply hoare_ret. }
      intros ? ->. eapply hoare_conseq; [apply IH | done | done | done | |].
      * intros S [Hno HS]. split; [set_solver|].
        intros i. rewrite HS. split.
        -- intros [Hi|(s' & ? & ?)]; [|right; exists s'; set_solver].
           apply elem_of_union in Hi as [?|Hi]; [by left|].
           right. exists s. set_solver.
        -- intros [?|(s' & Hs' & ?)]; [set_solver|].
           apply elem_of_cons in Hs' as [Heq|?]; [|right; exists s'; done].
           left. injection Heq as <-. set_solver.
      * intros e [? ?]. set_solver.
    + eapply hoare_bind with (Q1 := λ _, False); [|done].
      apply hoare_raise. set_solver.
Qed.

Lemma individual_ids_of_values_spec (d : gmap string SampleValue) :
  hoare (λ _, False) (λ _, False) (λ _, False)
    (λ S : gset string,
       ¬ has_placeholder d
       ∧ ∀ i, i ∈ S ↔ ∃ k s, d !! k = Some (SampleRecord s) ∧ individual_id (individual s) = i)
    (λ e, e = AttributeError ∧ has_placeholder d)
    (individual_ids_of_values (dict_values d)).
Proof.
  eapply hoare_conseq; [apply (individual_ids_of_values_loop (dict_values d) ∅) | done ..| |].
  - intros S [Hno HS]. split.
    + intros Hp. apply Hno. by apply elem_of_dict_values.
    + intros i. rewrite HS. split.
      * intros [?|(s & Hs & ?)]; [set_solver|].
        apply elem_of_dict_values in Hs as [k ?]. eauto.
      * intros (k & s & ? & ?). right. exists s. split; [|done].
        apply elem_of_dict_values. eauto.
  - intros e [? Hp]. split; [done|]. by apply elem_of_dict_values.
Qed.

Lemma step3_inner_body_spec (var : option Individual) (v : string) (c : Candidates)
    (i : string) :
  hoare (λ _, False) (λ _, False) (λ p, p = (v, i))
    (λ _, True) (λ e, e = UnboundLocalError)
    (step3_inner_body var v c i).
Proof.
  unfold step3_inner_body.
  eapply hoare_bind with (Q1 := λ _, True).
  { by apply hoare_call_compute_edit_distance. }
  intros n _. case_decide.
  - eapply hoare_bind with (Q1 := λ _, True); [by apply hoare_read_local|].
    intros. by apply hoare_ret.
  - case_decide; [|by apply hoare_ret].
    eapply hoare_bind with (Q1 := λ _, True); [by apply hoare_read_local|].
    intros. eapply hoare_bind with (Q1 := λ _, True); [by apply hoare_read_local|].
    intros. by apply hoare_ret.
Qed.

(** The list the two tests of the outer loop read is empty, so the loop
    keeps the dict and the pool as they are. *)
Lemma step3_outer_body_spec (var : option Individual) (st : FuzzyState) (v : string) :
  hoare (λ _, False) (λ _, False)
    (λ p, p.1 = v ∧ p.2 ∈ individual_ids_without_matching_sample_record st)
    (λ st', vcf_sample_id_to_sample_record st' = vcf_sample_id_to_sample_record st
            ∧ individual_ids_without_matching_sample_record st'
              = individual_ids_without_matching_sample_record st)
    (λ e, e = UnboundLocalError)
    (step3_outer_body o sample_type0 validate_only max_edit_distance var st v).
Proof.
  unfold step3_outer_body.
  eapply hoare_bind with (Q1 := λ _, True).
  - apply hoare_for_each with (I := λ _, True)
      (P := λ i, i ∈ individual_ids_without_matching_sample_record st); [ | | done ].
    + apply Forall_forall. intros i. apply elem_of_iter.
    + intros c i _ Hi. eapply hoare_conseq; [apply step3_inner_body_spec | done | done | | done | done].
      intros p ->. done.
  - intros c _. simpl. by apply hoare_ret.
Qed.

Lemma step3_spec (X : gset string) (l : list Individual)
    (st : gmap string SampleValue * option Individual) :
  hoare (λ _, False) (λ _, False) (step3_pair max_edit_distance X l st.1)
    (λ d, d = st.1 ∧ (X ∖ dom st.1 ≠ ∅ → ¬ has_placeholder st.1))
    (λ e, X ∖ dom st.1 ≠ ∅
          ∧ (e = AttributeError ∧ has_placeholder st.1
             ∨ e = UnboundLocalError ∧ ¬ has_placeholder st.1 ∧ (0 < max_edit_distance)%Z))
    (step3 o sample_type0 validate_only max_edit_distance X l st).
Proof.
  unfold step3. case_decide as Hsize.
  2:{ apply hoare_ret. split; [done|]. intros Hne. by apply size_pos_iff in Hne. }
  assert (Hne : X ∖ dom st.1 ≠ ∅) by by apply size_pos_iff.
  eapply hoare_bind.
  { eapply hoare_conseq; [apply (individual_ids_of_values_spec st.1) | done ..| |].
    - intros S HS. exact HS.
    - intros e [-> ?]. auto. }
  intros S [Hno HS]. simpl. case_decide as Hguard; [|by apply hoare_ret].
  destruct Hguard as (Hmax & _ & _).
  eapply hoare_bind with
    (Q1 := λ st', vcf_sample_id_to_sample_record st' = st.1
                  ∧ individual_ids_without_matching_sample_record st'
                    = list_to_set (individual_id <$> l) ∖ S).
  - apply hoare_for_each with (P := λ v, v ∈ X ∖ dom st.1); [ | | done ].
    + apply Forall_forall. intros v. apply elem_of_iter.
    + intros st0 v [Hd Hpool] Hv.
      eapply hoare_conseq; [apply step3_outer_body_spec | done | done | | |].
      * intros p [Hp1 Hp2]. rewrite Hpool in Hp2.
        apply elem_of_difference in Hp2 as [Hp2 HpS].
        apply elem_of_list_to_set in Hp2.
        split; [by rewrite Hp1|]. split; [done|]. split; [|done].
        intros k s Hk Heq. apply HpS. apply HS. eauto.
      * intros st' [-> ->]. done.
      * intros e ->. auto.
  - intros st' [-> _]. by apply hoare_ret.
Qed.

Lemma extends_False_eq (w w' : World) :
  extends (λ _, False) (λ _, False) (λ _, False) w w' → w' = w.
Proof.
  intros [Hi Hd (s & Hs & Fs) (l & Hl & Fl) (c & Hc & Fc)].
  destruct s as [|? ?]; [|by apply Forall_cons in Fs as [[] _]].
  destruct l as [|? ?]; [|by apply Forall_cons in Fl as [[] _]].
  destruct c as [|? ?]; [|by apply Forall_cons in Fc as [[] _]].
  rewrite app_nil_r in *. destruct w, w'; simpl in *. congruence.
Qed.

Lemma individual_ids_of_values_run (d : gmap string SampleValue) (w : World) :
  ¬ has_placeholder d →
  individual_ids_of_values (dict_values d) w = (Return (individual_ids_with_record d), w).
Proof.
  intros Hno. destruct (individual_ids_of_values_spec d w) as [Hext Hres].
  destruct (individual_ids_of_values (dict_values d) w) as [[S|e] w'];
    simpl in Hext, Hres; [|by destruct Hres as [_ ?]].
  apply extends_False_eq in Hext as ->. f_equal. f_equal.
  apply set_eq. intros i. destruct Hres as [_ ->].
  unfold individual_ids_with_record. rewrite elem_of_list_to_set, list_elem_of_omap.
  split.
  - intros (k & s & Hk & <-). exists (SampleRecord s). split; [|done].
    apply elem_of_dict_values. eauto.
  - intros ([s|] & Hv & Heq); [|done]. injection Heq as <-.
    apply elem_of_dict_values in Hv as [k Hk]. eauto.
Qed.

(** When the first comparison of the fuzzy stage finds a distance equal to
    the threshold, the [elif] branch appends to a variable that was never
    assigned: step 3 raises UnboundLocalError. *)
Lemma step3_raises_at_threshold (X : gset string) (l : list Individual)
    (st : gmap string SampleValue * option Individual) (w : World)
    (v i : string) (vs is_ : list string) :
  ¬ has_placeholder st.1 →
  iter o (X ∖ dom st.1) = v :: vs →
  iter o (list_to_set (individual_id <$> l) ∖ individual_ids_with_record st.1) = i :: is_ →
  Z.of_nat (EditDistance.compute_edit_distance v i) = max_edit_distance →
  (0 < max_edit_distance)%Z →
  (step3 o sample_type0 validate_only max_edit_distance X l st w).1
  = Raise UnboundLocalError.
Proof.
  intros Hno HR Hpool Hn Hmax. unfold step3.
  assert (HRne : X ∖ dom st.1 ≠ ∅).
  { intros Heq. assert (v ∈ X ∖ dom st.1) as Hv by (apply elem_of_iter; rewrite HR; set_solver).
    rewrite Heq in Hv. set_solver. }
  assert (Hpne : list_to_set (individual_id <$> l) ∖ individual_ids_with_record st.1
                 ≠ (∅ : gset string)).
  { intros Heq. rewrite Heq in Hpool. pose proof (iter_perm o ∅) as Hp.
    rewrite Hpool, elements_empty in Hp. by apply Permutation_nil_r in Hp. }
  rewrite decide_True by by apply size_pos_iff.
  rewrite bind_run. fold (dict_values st.1).
  rewrite individual_ids_of_values_run by done.
  cbv zeta. rewrite decide_True by done.
  rewrite bind_run, HR. cbn [for_each]. rewrite bind_run.
  unfold step3_outer_body at 1. rewrite bind_run.
  cbn [individual_ids_without_matching_sample_record lowest_individual_var].
  rewrite Hpool. cbn [for_each]. rewrite bind_run.
  unfold step3_inner_body at 1. rewrite bind_run.
  unfold call_compute_edit_distance at 1. cbv beta iota.
  cbn [current_lowest_edit_distance current_lowest_edit_distance_individual].
  rewrite decide_False by lia. rewrite decide_True by done.
  reflexivity.
Qed.

(** *** The whole matcher *)

Lemma print_stats_spec (X : gset string) (d : gmap string SampleValue) :
  hoare (λ _, False) (λ m, ∃ n, m = StatsMatched n ∨ m = StatsUnmatched n) (λ _, False)
    (λ _, True) (λ _, False) (print_stats X d).
Proof.
  unfold print_stats. eapply hoare_bind with (Q1 := λ _, True).
  - case_decide; [apply hoare_logger_info; eauto | by apply hoare_ret].
  - intros _ _. simpl. case_decide; [apply hoare_logger_info; eauto | by apply hoare_ret].
Qed.

Lemma logger_info_run (msg : LogMsg) (w : World) :
  ∃ w', logger_info msg w = (Return (), w')
        ∧ extends (λ _, False) (λ m, m = msg) (λ _, False) w w'.
Proof.
  eexists. split; [reflexivity|].
  apply (hoare_logger_info (λ _, False) (λ m, m = msg) (λ _, False) (λ _, True) (λ _, False));
    done.
Qed.

(** One run of the matcher, stage by stage. *)
Lemma match_run (vcf_sample_ids : list string) (w : World) :
  let X : gset string := list_to_set vcf_sample_ids in
  let l := all_individuals_of project0 w in
  ∃ d1 d2 r w',
    _match_vcf_id_to_sample_id o project0 sample_type0 validate_only max_edit_distance
      vcf_sample_ids w = (r, w')
    ∧ after_step1 X (existing_samples_of_this_type project0 sample_type0 w) d1
    ∧ after_step2 validate_only sample_type0 X l d1 d2
    ∧ after_step3 max_edit_distance X d2 r
    ∧ (∃ st w2, st.1 = d2
                ∧ r = (step3 o sample_type0 validate_only max_edit_distance X l st w2).1)
    ∧ extends (step2_sample validate_only sample_type0 (X ∖ dom d1) l)
              (matcher_log (X ∖ dom d1) l) (step3_pair max_edit_distance X l d2) w w'.
Proof.
  intros X l. unfold _match_vcf_id_to_sample_id. fold X.
  rewrite bind_run.
  destruct (logger_info_run (SampleIdsFound (List.length vcf_sample_ids) vcf_sample_ids) w)
    as (w0 & -> & Hext0).
  rewrite bind_run.
  destruct (step1_run X w0) as (d1 & w1 & -> & Hd1 & Hext1).
  assert (Hsame : existing_samples_of_this_type project0 sample_type0 w0
                  = existing_samples_of_this_type project0 sample_type0 w).
  { unfold existing_samples_of_this_type.
    destruct Hext0 as [_ _ (s & -> & Hs) _ _]. destruct s; [by rewrite app_nil_r|].
    by apply Forall_cons in Hs as [[] _]. }
  rewrite Hsame in Hd1.
  rewrite bind_run. unfold Individual_objects_filter at 1. cbv beta iota.
  assert (Hl : filter (in_project project0) (db_individuals w1) = l).
  { unfold l, all_individuals_of. by rewrite (ext_individuals _ _ _ _ _ Hext1),
      (ext_individuals _ _ _ _ _ Hext0). }
  rewrite Hl. rewrite bind_run.
  destruct (step2_spec X l d1 w1) as [Hext2 Hres2].
  destruct (step2 _ _ _ _ _ w1) as [[st|e] w2]; simpl in Hext2, Hres2; [|done].
  rewrite bind_run.
  destruct (step3_spec X l st w2) as [Hext3 Hres3].
  assert (Hext02 : extends (step2_sample validate_only sample_type0 (X ∖ dom d1) l)
                     (matcher_log (X ∖ dom d1) l) (step3_pair max_edit_distance X l st.1) w w2).
  { eapply extends_trans; [|eapply extends_trans].
    - eapply extends_mono; [| | |exact Hext0]; [done| |done].
      intros m ->. right. done.
    - eapply extends_mono; [| | |exact Hext1]; [done| |done].
      intros m [v ->]. right. done.
    - eapply extends_mono; [| | |exact Hext2]; [done| |done].
      intros m Hm. by left. }
  destruct (step3 _ _ _ _ _ _ _ w2) as [[d3|e] w3] eqn:Hrun3; simpl in Hext3, Hres3.
  - rewrite bind_run.
    destruct (print_stats_spec X d3 w3) as [Hext4 Hres4].
    destruct (print_stats X d3 w3) as [[[]|e] w4]; simpl in Hext4, Hres4; [|done].
    exists d1, st.1, (Return d3), w4. split; [done|]. split; [done|].
    split; [exact Hres2|]. split; [exact Hres3|].
    split; [exists st, w2; by rewrite Hrun3|].
    eapply extends_trans; [exact Hext02|]. eapply extends_trans.
    + eapply extends_mono; [| | |exact Hext3]; done.
    + eapply extends_mono; [| | |exact Hext4]; [done| |done].
      intros m [n [->| ->]]; right; done.
  - exists d1, st.1, (Raise e), w3. split; [done|]. split; [done|].
    split; [exact Hres2|]. split; [exact Hres3|].
    split; [exists st, w2; by rewrite Hrun3|].
    eapply extends_trans; [exact Hext02|].
    eapply extends_mono; [| | |exact Hext3]; done.
Qed.

(** The matcher as its first two commands followed by the rest. *)
Lemma match_eq (vcf_sample_ids : list string) (w : World) :
  _match_vcf_id_to_sample_id o project0 sample_type0 validate_only max_edit_distance
    vcf_sample_ids w
  = let X : gset string := list_to_set vcf_sample_ids in
    let w0 := (logger_info (SampleIdsFound (List.length vcf_sample_ids) vcf_sample_ids) w).2 in
    match step1 o project0 sample_type0 X w0 with
    | (Return d1, w1) =>
        (st ← step2 sample_type0 validate_only X (all_individuals_of project0 w1) d1;
         d ← step3 o sample_type0 validate_only max_edit_distance X
               (all_individuals_of project0 w1) st;
         print_stats X d;; mret d) w1
    | (Raise e, w1) => (Raise e, w1)
    end.
Proof. reflexivity. Qed.

(** Without existing samples of the type, step 1 binds nothing and logs
    nothing, whatever the order. *)
Lemma step1_no_existing (X : gset string) (w : World) :
  existing_samples_of_this_type project0 sample_type0 w = ∅ →
  step1 o project0 sample_type0 X w = (Return ∅, w).
Proof.
  intros Hex. unfold step1. rewrite bind_run. simpl.
  unfold existing_samples_of_this_type in Hex. rewrite Hex.
  generalize (iter o X). intros l. induction l as [|x l IH]; [done|].
  cbn [for_each]. rewrite bind_run. unfold step1_body at 1. rewrite lookup_empty.
  exact IH.
Qed.

(** The iteration of a set with one or two elements. *)
Lemma iter_one (S : gset string) (x : string) : elements S = [x] → iter o S = [x].
Proof.
  intros HS. pose proof (iter_perm o S) as Hp. rewrite HS in Hp.
  by apply Permutation_singleton_r in Hp.
Qed.

Lemma iter_two (S : gset string) (x y : string) :
  elements S = [x; y] → iter o S = [x; y] ∨ iter o S = [y; x].
Proof.
  intros HS. pose proof (iter_perm o S) as Hp. rewrite HS in Hp.
  pose proof (Permutation_length Hp) as Hlen.
  destruct (iter o S) as [|a [|b [|c l]]]; try done.
  assert (Ha : a ∈ [x; y]) by (rewrite <- Hp; set_solver).
  assert (Hb : b ∈ [x; y]) by (rewrite <- Hp; set_solver).
  assert (Hx : x ∈ [a; b]) by (rewrite Hp; set_solver).
  assert (Hy : y ∈ [a; b]) by (rewrite Hp; set_solver).
  assert (Hnd : NoDup [a; b]) by (rewrite Hp, <- HS; apply NoDup_elements).
  apply NoDup_cons in Hnd as [Hab _].
  set_solver.
Qed.

End MatcherFacts.

(** ** The claims about the matcher *)

Lemma elem_of_new_samples Ps Pl Pc w w' s :
  extends Ps Pl Pc w w' → s ∈ new_samples w w' → Ps s.
Proof.
  intros Hext Hs. apply extends_new_samples in Hext as [_ HF].
  rewrite Forall_forall in HF. auto.
Qed.

Lemma elem_of_new_log Ps Pl Pc w w' m :
  extends Ps Pl Pc w w' → m ∈ new_log w w' → Pl m.
Proof.
  intros Hext Hm. apply extends_new_log in Hext as [_ HF].
  rewrite Forall_forall in HF. auto.
Qed.

Lemma elem_of_new_compared Ps Pl Pc w w' p :
  extends Ps Pl Pc w w' → p ∈ new_compared w w' → Pc p.
Proof.
  intros Hext Hp. apply extends_new_compared in Hext as [_ HF].
  rewrite Forall_forall in HF. auto.
Qed.

(** A validate-only run of the matcher leaves the three tables as they are,
    whether it returns or raises. *)
Lemma validate_only_creates_nothing o p t max ids w :
  let w' := (_match_vcf_id_to_sample_id o p t true max ids w).2 in
  db_samples w' = db_samples w ∧ db_individuals w' = db_individuals w
  ∧ db_datasets w' = db_datasets w.
Proof.
  destruct (match_run o p t true max ids w) as (d1 & d2 & r & w' & Hrun & _ & _ & _ & _ & Hext).
  rewrite Hrun. simpl. split; [|split; apply Hext].
  destruct (extends_new_samples _ _ _ _ _ Hext) as [-> HF].
  destruct (new_samples w w') as [|s l]; [by rewrite app_nil_r|].
  apply Forall_cons in HF as [[? _] _]. done.
Qed.

(** Step 3 binds nothing: a key of the returned dict is a sample id found in
    step 1 or an individual id found in step 2; no fuzzy match and no
    ambiguity is ever logged; every Sample created is one of step 2. *)
Lemma matcher_never_binds_fuzzily o p t vo max ids w :
  let run := _match_vcf_id_to_sample_id o p t vo max ids w in
  (∀ d k, run.1 = Return d → k ∈ dom d →
          is_Some (existing_samples_of_this_type p t w !! k)
          ∨ k ∈ individual_id <$> all_individuals_of p w)
  ∧ (∀ m, m ∈ new_log w run.2 →
          (∀ i v n, m ≠ MatchIndividualFuzzy i v n) ∧ (∀ v l, m ≠ NoMatchMultiple v l))
  ∧ (∀ s, s ∈ new_samples w run.2 →
          individual s ∈ all_individuals_of p w
          ∧ individual_id (individual s) = sample_id s).
Proof.
  destruct (match_run o p t vo max ids w)
    as (d1 & d2 & r & w' & Hrun & H1 & [H2in H2out] & H3 & Hrun3 & Hext).
  rewrite Hrun. simpl. split; [|split].
  - intros d k -> Hk. destruct H3 as [-> _].
    destruct (decide (k ∈ individual_id <$> all_individuals_of p w)); [by right|left].
    apply elem_of_dom in Hk. rewrite H2out in Hk by tauto.
    rewrite H1 in Hk. case_decide; [|by destruct Hk].
    destruct (existing_samples_of_this_type p t w !! k); [done | by destruct Hk].
  - intros m Hm. eapply elem_of_new_log in Hm; [|exact Hext].
    destruct Hm as [(i & _ & _ & ->)|(_ & ? & ?)]; done.
  - intros s Hs. eapply elem_of_new_samples in Hs; [|exact Hext].
    destruct Hs as (_ & _ & _ & ? & ?). done.
Qed.

(** In a validate-only run, once step 2 has matched an individual id and
    another vcf id is left, the matcher raises AttributeError. *)
Lemma validate_only_raises o p t max ids w i v :
  i ∈ all_individuals_of p w → individual_id i ∈ ids →
  existing_samples_of_this_type p t w !! individual_id i = None →
  v ∈ ids → existing_samples_of_this_type p t w !! v = None →
  v ∉ individual_id <$> all_individuals_of p w →
  (_match_vcf_id_to_sample_id o p t true max ids w).1 = Raise AttributeError.
Proof.
  intros Hi Hiids Hiex Hv Hvex Hvl.
  destruct (match_run o p t true max ids w)
    as (d1 & d2 & r & w' & Hrun & H1 & [H2in H2out] & H3 & Hrun3 & Hext).
  rewrite Hrun. simpl.
  assert (Hd1i : d1 !! individual_id i = None).
  { rewrite H1. case_decide; [by rewrite Hiex | done]. }
  assert (Hd1v : d1 !! v = None).
  { rewrite H1. case_decide; [by rewrite Hvex | done]. }
  assert (Hph : has_placeholder d2).
  { exists (individual_id i). destruct (H2in (individual_id i)) as (x & Hx & Hval).
    - apply elem_of_difference. split; [by apply elem_of_list_to_set|].
      by apply not_elem_of_dom.
    - apply list_elem_of_fmap. eauto.
    - unfold step2_value in Hval. by subst. }
  assert (Hne : list_to_set ids ∖ dom d2 ≠ (∅ : gset string)).
  { assert (v ∈ (list_to_set ids : gset string) ∖ dom d2); [|set_solver].
    apply elem_of_difference. split; [by apply elem_of_list_to_set|].
    apply not_elem_of_dom. rewrite H2out; [done | tauto]. }
  destruct r as [d|e]; simpl in H3.
  - destruct H3 as [_ Hno]. by destruct (Hno Hne).
  - destruct H3 as [_ [[-> _]|(_ & Hno & _)]]; [done | by destruct Hno].
Qed.

Lemma sample_id_dict_snoc rows s :
  sample_id_dict (rows ++ [s]) = <[sample_id s := s]> (sample_id_dict rows).
Proof. unfold sample_id_dict. by rewrite foldl_app. Qed.

Lemma sample_id_dict_Some rows k s :
  sample_id_dict rows !! k = Some s → s ∈ rows ∧ sample_id s = k.
Proof.
  induction rows as [|x rows IH] using rev_ind; [done|].
  rewrite sample_id_dict_snoc. destruct (decide (sample_id x = k)) as [<-|Hne].
  - rewrite lookup_insert_eq. intros [= ->]. set_solver.
  - rewrite lookup_insert_ne by done. set_solver.
Qed.

Lemma sample_id_dict_is_Some rows s :
  s ∈ rows → is_Some (sample_id_dict rows !! sample_id s).
Proof.
  induction rows as [|x rows IH] using rev_ind; [by intros ?%elem_of_nil|].
  rewrite sample_id_dict_snoc. intros Hs.
  destruct (decide (sample_id x = sample_id s)) as [Heq|Hne].
  - rewrite Heq, lookup_insert_eq. eauto.
  - rewrite lookup_insert_ne by done. apply IH. set_solver.
Qed.

(** C5: a vcf sample id that is the sample id of an existing Sample of the
    requested type in the project is bound by step 1 to such a Sample, the
    returned dict keeps that binding, the id is never an argument of
    [compute_edit_distance], and no Sample is created under it. *)
Theorem exact_sample_id_match_first o p t vo max ids w s0 :
  s0 ∈ db_samples w → in_project p (individual s0) → sample_type s0 = t →
  sample_id s0 ∈ ids →
  let run := _match_vcf_id_to_sample_id o p t vo max ids w in
  ∃ s, (s ∈ db_samples w ∧ sample_id s = sample_id s0 ∧ sample_type s = t
        ∧ in_project p (individual s))
       ∧ (∃ d1 w1, step1 o p t (list_to_set ids) w = (Return d1, w1)
                   ∧ d1 !! sample_id s0 = Some (SampleRecord s))
       ∧ (∀ d, run.1 = Return d → d !! sample_id s0 = Some (SampleRecord s))
       ∧ (∀ q, q ∈ new_compared w run.2 → q.1 ≠ sample_id s0)
       ∧ (∀ c, c ∈ new_samples w run.2 → sample_id c ≠ sample_id s0).
Proof.
  intros Hs0 Hp Ht Hids run.
  assert (Hrow : s0 ∈ filter (λ s, in_project p (individual s) ∧ sample_type s = t)
                        (db_samples w)) by (apply list_elem_of_filter; auto).
  destruct (sample_id_dict_is_Some _ _ Hrow) as [s Hs].
  assert (Hex : existing_samples_of_this_type p t w !! sample_id s0 = Some s) by exact Hs.
  apply sample_id_dict_Some in Hs as [Hs Hid].
  apply list_elem_of_filter in Hs as [[Hsp Hst] Hs].
  exists s. split; [done|].
  assert (HX : sample_id s0 ∈ (list_to_set ids : gset string))
    by by apply elem_of_list_to_set.
  split.
  { destruct (step1_run o p t (list_to_set ids) w) as (d1 & w1 & Hrun1 & Hd1 & _).
    exists d1, w1. split; [done|]. rewrite Hd1, decide_True, Hex; done. }
  subst run.
  destruct (match_run o p t vo max ids w)
    as (d1 & d2 & r & w' & Hrun & H1 & [H2in H2out] & H3 & Hrun3 & Hext).
  rewrite Hrun. simpl.
  assert (Hd1 : d1 !! sample_id s0 = Some (SampleRecord s)).
  { rewrite H1, decide_True, Hex; done. }
  assert (Hd2 : d2 !! sample_id s0 = Some (SampleRecord s)).
  { rewrite H2out; [done|]. intros [Hin _]. apply elem_of_difference in Hin as [_ Hin].
    apply Hin, elem_of_dom. eauto. }
  split; [|split].
  - intros d ->. by destruct H3 as [-> _].
  - intros q Hq Heq. eapply elem_of_new_compared in Hq; [|exact Hext].
    destruct Hq as (Hq & _). rewrite Heq in Hq.
    apply elem_of_difference in Hq as [_ Hq]. apply Hq, elem_of_dom. eauto.
  - intros c Hc Heq. eapply elem_of_new_samples in Hc; [|exact Hext].
    destruct Hc as (_ & Hc & _). rewrite Heq in Hc.
    apply elem_of_difference in Hc as [_ Hc]. apply Hc, elem_of_dom. eauto.
Qed.

Lemma exact_sample_id_match_first_witness :
  let s0 := {| sample_pk := 7; sample_id := "S1"; sample_type := "WES";
               individual := individual_of "I1" |} in
  let run := _match_vcf_id_to_sample_id elements_order "P" "WES" false 2 ["S1"; "I3"]
               sampled_world in
  ∃ s, (s ∈ db_samples sampled_world ∧ sample_id s = sample_id s0 ∧ sample_type s = "WES"
        ∧ in_project "P" (individual s))
       ∧ (∃ d1 w1, step1 elements_order "P" "WES" (list_to_set ["S1"; "I3"]) sampled_world
                   = (Return d1, w1)
                   ∧ d1 !! sample_id s0 = Some (SampleRecord s))
       ∧ (∀ d, run.1 = Return d → d !! sample_id s0 = Some (SampleRecord s))
       ∧ (∀ q, q ∈ new_compared sampled_world run.2 → q.1 ≠ sample_id s0)
       ∧ (∀ c, c ∈ new_samples sampled_world run.2 → sample_id c ≠ sample_id s0).
Proof.
  intros s0 run.
  apply (exact_sample_id_match_first elements_order "P" "WES" false 2 ["S1"; "I3"]
           sampled_world s0).
  - apply list_elem_of_here.
  - reflexivity.
  - reflexivity.
  - apply list_elem_of_here.
Defined.

(** C6 (scenario A): individuals S1, S2, S3, no samples, vcf ids S1 and S2,
    threshold 0, not validate-only.  Whatever the iteration order, the
    matcher returns the dict binding S1 and S2 to two new Samples owned by
    the individuals S1 and S2; these are the only Samples created, the
    individuals are as before, and no vcf id is left unmatched. *)
Theorem scenario_A_creates_two_samples o :
  let w := project_world ["S1"; "S2"; "S3"] in
  let run := _match_vcf_id_to_sample_id o "P" "WES" false 0 ["S1"; "S2"] w in
  let d : gmap string SampleValue :=
    {[ "S1" := SampleRecord (sample_of 1 "S1"); "S2" := SampleRecord (sample_of 2 "S2") ]} in
  run.1 = Return d
  ∧ db_samples run.2 = [sample_of 1 "S1"; sample_of 2 "S2"]
  ∧ db_individuals run.2 = individual_of <$> ["S1"; "S2"; "S3"]
  ∧ (list_to_set ["S1"; "S2"] : gset string) ∖ dom d = ∅.
Proof.
  intros w run d. subst run. rewrite match_eq. cbv zeta.
  rewrite step1_no_existing by (vm_compute; reflexivity).
  vm_compute. repeat split.
Qed.

(** C4: in a validate-only run step 2 stores the placeholder for every vcf
    id it matches to an individual id; and when some vcf id is matched that
    way while another one matches neither a sample id nor an individual id,
    the matcher raises AttributeError instead of returning. *)
Theorem validate_only_placeholder_raises o p t max ids w i v :
  i ∈ all_individuals_of p w → individual_id i ∈ ids →
  existing_samples_of_this_type p t w !! individual_id i = None →
  v ∈ ids → existing_samples_of_this_type p t w !! v = None →
  v ∉ individual_id <$> all_individuals_of p w →
  (∀ (X : gset string) l d w1, ∃ st w2,
      step2 t true X l d w1 = (Return st, w2)
      ∧ ∀ k, k ∈ X ∖ dom d → k ∈ individual_id <$> l → st.1 !! k = Some Placeholder)
  ∧ (_match_vcf_id_to_sample_id o p t true max ids w).1 = Raise AttributeError.
Proof.
  intros Hi Hiids Hiex Hv Hvex Hvl. split.
  - intros X l d w1. destruct (step2_spec t true X l d w1) as [_ Hres].
    destruct (step2 t true X l d w1) as [[st|e] w2]; simpl in Hres; [|done].
    exists st, w2. split; [done|]. intros k HkX Hkl.
    destruct Hres as [Hin _]. destruct (Hin k HkX Hkl) as (x & -> & ->). done.
  - by eapply validate_only_raises.
Qed.

Lemma validate_only_placeholder_raises_witness :
  (∀ (X : gset string) l d w1, ∃ st w2,
      step2 "WES" true X l d w1 = (Return st, w2)
      ∧ ∀ k, k ∈ X ∖ dom d → k ∈ individual_id <$> l → st.1 !! k = Some Placeholder)
  ∧ (_match_vcf_id_to_sample_id elements_order "P" "WES" true 0 ["S1"; "S2"]
       (project_world ["S1"])).1 = Raise AttributeError.
Proof.
  apply (validate_only_placeholder_raises elements_order "P" "WES" 0 ["S1"; "S2"]
           (project_world ["S1"]) (individual_of "S1") "S2").
  - vm_compute. apply list_elem_of_here.
  - apply list_elem_of_here.
  - vm_compute. reflexivity.
  - apply list_elem_of_further, list_elem_of_here.
  - vm_compute. reflexivity.
  - apply (bool_decide_unpack _). vm_compute. exact I.
Defined.

Lemma fuzzy_targets_nil (l : list LogMsg) :
  (∀ m, m ∈ l → ∀ i v n, m ≠ MatchIndividualFuzzy i v n) → fuzzy_targets l = [].
Proof.
  induction l as [|m l IH]; intros Hl; [done|].
  unfold fuzzy_targets in *. cbn [omap list_omap].
  rewrite IH by (intros; apply Hl; set_solver).
  assert (Hm : ∀ i v n, m ≠ MatchIndividualFuzzy i v n) by (apply Hl; set_solver).
  destruct m; try done. by destruct (Hm individual_id0 vcf_sample_id distance).
Qed.

(** C7: within one run, an individual id that step 2 matched exactly, or that
    the log reports as a fuzzy match, is never an argument of
    [compute_edit_distance]; and the individual ids reported as fuzzy matches
    are pairwise different. *)
Theorem consumed_individuals_leave_pool o p t vo max ids w :
  let run := _match_vcf_id_to_sample_id o p t vo max ids w in
  (∀ i q, MatchIndividualExact i ∈ new_log w run.2
          ∨ i ∈ fuzzy_targets (new_log w run.2) →
          q ∈ new_compared w run.2 → q.2 ≠ i)
  ∧ NoDup (fuzzy_targets (new_log w run.2)).
Proof.
  intros run.
  assert (Hnil : fuzzy_targets (new_log w run.2) = []).
  { apply fuzzy_targets_nil. intros m Hm.
    by apply (matcher_never_binds_fuzzily o p t vo max ids w). }
  rewrite Hnil. split; [|apply NoDup_nil_2].
  intros i q [Hlog|Hf] Hq; [|by apply elem_of_nil in Hf].
  subst run.
  destruct (match_run o p t vo max ids w)
    as (d1 & d2 & r & w' & Hrun & H1 & [H2in H2out] & H3 & Hrun3 & Hext).
  rewrite Hrun in Hlog, Hq. simpl in Hlog, Hq.
  eapply elem_of_new_log in Hlog; [|exact Hext].
  eapply elem_of_new_compared in Hq; [|exact Hext].
  destruct Hlog as [(j & Hj & HjR & [= ->])|(Hno & _)]; [|by destruct (Hno i)].
  destruct (H2in (individual_id j)) as (x & Hx & Hval).
  { done. }
  { apply list_elem_of_fmap. eauto. }
  destruct Hq as (_ & _ & Hq & Hph & _).
  unfold step2_value in Hval. destruct vo.
  - subst x. destruct Hph. by exists (individual_id j).
  - destruct Hval as (s & -> & _ & _ & _ & Hs). intros Heq.
    apply (Hq _ _ Hx). congruence.
Qed.

Lemma after_step1_empty X d1 : after_step1 X ∅ d1 → d1 = ∅.
Proof.
  intros H1. apply map_eq. intros k. rewrite H1, lookup_empty. by case_decide.
Qed.

Lemma after_step2_no_individual vo t (X : gset string) l d1 d2 :
  after_step2 vo t X l d1 d2 → (∀ k, k ∈ X → k ∉ individual_id <$> l) → d2 = d1.
Proof.
  intros [_ Hout] Hno. apply map_eq. intros k. apply Hout.
  intros [Hk Hkl]. apply elem_of_difference in Hk as [Hk _]. by apply (Hno k).
Qed.

(** C1 (the code departs from it), scenario B: individuals S1 and S9, vcf id
    S1x, threshold 2.  S1 is the only individual id at the minimum distance
    1, below the threshold; yet in whatever order the sets are iterated the
    matcher either returns the empty dict or raises UnboundLocalError, and
    creates no Sample. *)
Theorem scenario_B_unique_minimum_not_bound o :
  let w := project_world ["S1"; "S9"] in
  let run := _match_vcf_id_to_sample_id o "P" "WES" false 2 ["S1x"] w in
  (EditDistance.compute_edit_distance "S1x" "S1" = 1
   ∧ EditDistance.compute_edit_distance "S1x" "S9" = 2)
  ∧ (run.1 = Return ∅ ∨ run.1 = Raise UnboundLocalError)
  ∧ db_samples run.2 = [].
Proof.
  intros w run. split; [by vm_compute|]. subst run.
  destruct (match_run o "P" "WES" false 2 ["S1x"] w)
    as (d1 & d2 & r & w' & Hrun & H1 & H2 & H3 & _ & Hext).
  rewrite Hrun. simpl.
  assert (Hex : existing_samples_of_this_type "P" "WES" w = ∅) by (vm_compute; reflexivity).
  rewrite Hex in H1. apply after_step1_empty in H1 as ->.
  assert (Hl : all_individuals_of "P" w = [individual_of "S1"; individual_of "S9"])
    by (vm_compute; reflexivity).
  rewrite Hl in *.
  apply after_step2_no_individual in H2 as ->.
  2:{ intros k Hk. apply elem_of_list_to_set in Hk. apply list_elem_of_singleton in Hk as ->.
      apply (bool_decide_unpack _). vm_compute. exact I. }
  split.
  - destruct r as [d|e]; simpl in H3.
    + left. by destruct H3 as [-> _].
    + right. destruct H3 as [_ [[_ [k Hk]]|[-> _]]]; [|done].
      by rewrite lookup_empty in Hk.
  - destruct (extends_new_samples _ _ _ _ _ Hext) as [-> HF]. simpl.
    destruct (new_samples w w') as [|s ss]; [done|]. exfalso.
    apply Forall_cons in HF as [(_ & Hs & _ & Hind & Hid) _].
    apply elem_of_difference in Hs as [Hs _]. apply elem_of_list_to_set in Hs.
    apply list_elem_of_singleton in Hs. rewrite Hs in Hid.
    apply elem_of_cons in Hind as [Heq|Hind]; [by rewrite Heq in Hid|].
    apply list_elem_of_singleton in Hind. by rewrite Hind in Hid.
Qed.

(** C2 (the code departs from it).  Scenario D: individual S1, vcf id S1x,
    threshold 1; the best distance equals the threshold and the matcher
    raises UnboundLocalError, in whatever order the sets are iterated.
    A tie: individuals S1 and S1y are both at distance 1 from S1x, below the
    threshold 2, and no run logs the ambiguity. *)
Theorem scenario_D_threshold_raises o :
  let run_D := _match_vcf_id_to_sample_id o "P" "WES" false 1 ["S1x"]
                 (project_world ["S1"]) in
  let run_C := _match_vcf_id_to_sample_id o "P" "WES" false 2 ["S1x"]
                 (project_world ["S1"; "S1y"]) in
  (EditDistance.compute_edit_distance "S1x" "S1" = 1 ∧ run_D.1 = Raise UnboundLocalError)
  ∧ (EditDistance.compute_edit_distance "S1x" "S1y" = 1
     ∧ ∀ m, m ∈ log run_C.2 → ∀ v l, m ≠ NoMatchMultiple v l).
Proof.
  intros run_D run_C. split; split.
  - vm_compute. reflexivity.
  - subst run_D. set (w := project_world ["S1"]).
    destruct (match_run o "P" "WES" false 1 ["S1x"] w)
      as (d1 & d2 & r & w' & Hrun & H1 & H2 & H3 & (st & w2 & Hst & Hr) & Hext).
    rewrite Hrun. simpl. rewrite Hr.
    assert (Hex : existing_samples_of_this_type "P" "WES" w = ∅)
      by (vm_compute; reflexivity).
    rewrite Hex in H1. apply after_step1_empty in H1 as ->.
    assert (Hl : all_individuals_of "P" w = [individual_of "S1"])
      by (vm_compute; reflexivity).
    rewrite Hl in *.
    apply after_step2_no_individual in H2 as ->.
    2:{ intros k Hk. apply elem_of_list_to_set in Hk.
        apply list_elem_of_singleton in Hk as ->.
        apply (bool_decide_unpack _). vm_compute. exact I. }
    apply step3_raises_at_threshold with (v := "S1x") (i := "S1") (vs := []) (is_ := []);
      rewrite ?Hst.
    + intros [k Hk]. by rewrite lookup_empty in Hk.
    + apply iter_one. vm_compute. reflexivity.
    + apply iter_one. vm_compute. reflexivity.
    + vm_compute. reflexivity.
    + lia.
  - vm_compute. reflexivity.
  - intros m Hm.
    apply (matcher_never_binds_fuzzily o "P" "WES" false 2 ["S1x"]
             (project_world ["S1"; "S1y"])).
    exact Hm.
Qed.

(** C3 (the code departs from it): individual S1, vcf ids S1 and S2.  A
    validate-only run creates nothing, but it raises AttributeError, where
    the run that is not validate-only returns the dict that binds S1. *)
Theorem validate_only_run_raises_where_run_matches o :
  let w := project_world ["S1"] in
  let dry := _match_vcf_id_to_sample_id o "P" "WES" true 0 ["S1"; "S2"] w in
  let real := _match_vcf_id_to_sample_id o "P" "WES" false 0 ["S1"; "S2"] w in
  dry.1 = Raise AttributeError
  ∧ (db_samples dry.2 = [] ∧ db_individuals dry.2 = db_individuals w
     ∧ db_datasets dry.2 = [])
  ∧ real.1 = Return {[ "S1" := SampleRecord (sample_of 1 "S1") ]}.
Proof.
  intros w dry real. split; [|split].
  - apply validate_only_raises with (i := individual_of "S1") (v := "S2").
    + vm_compute. apply list_elem_of_here.
    + apply list_elem_of_here.
    + vm_compute. reflexivity.
    + apply list_elem_of_further, list_elem_of_here.
    + vm_compute. reflexivity.
    + apply (bool_decide_unpack _). vm_compute. exact I.
  - apply (validate_only_creates_nothing o "P" "WES" 0 ["S1"; "S2"] w).
  - subst real. rewrite match_eq. cbv zeta.
    rewrite step1_no_existing by (vm_compute; reflexivity).
    vm_compute. reflexivity.
Qed.

(** C9 (the code departs from it): on the input of scenario B the outcome
    depends on the order in which the set of unclaimed individual ids is
    iterated: with S9 first the matcher raises UnboundLocalError, with S1
    first it returns the empty dict. *)
Theorem scenario_B_depends_on_iteration_order :
  let w := project_world ["S1"; "S9"] in
  (iter elements_order {[ "S1"; "S9" ]} = ["S9"; "S1"]
   ∧ (_match_vcf_id_to_sample_id elements_order "P" "WES" false 2 ["S1x"] w).1
     = Raise UnboundLocalError)
  ∧ (iter reverse_order {[ "S1"; "S9" ]} = ["S1"; "S9"]
     ∧ (_match_vcf_id_to_sample_id reverse_order "P" "WES" false 2 ["S1x"] w).1
       = Return ∅).
Proof. vm_compute. repeat split. Qed.

(** ** Linking the dataset *)

Section LinkerFacts.

Variable o : SetOrder.
Variable A : string.
Variable is_loaded_default : bool.
Variable add_or_update : string → list string → list Individual → list Individual.
Variables (p path : string) (vo : bool) (yes : bool).

Lemma Dataset_objects_get_run (w : World) :
  Dataset_objects_get A path p w = (get_result A path p (db_datasets w), w).
Proof.
  unfold Dataset_objects_get, get_result, selected.
  destruct (filter _ _) as [|? [|? ?]]; reflexivity.
Qed.

Lemma check_already_loaded_run ids d w :
  check_already_loaded A p path ids d w
  = match get_result A path p (db_datasets w) with
    | Return dataset =>
        if decide (already_loaded d dataset)
        then (Return None, (logger_info (AlreadyLoaded (size (dom d))) w).2)
        else (Return (Some (IdSet (dom d))), w)
    | Raise ObjectDoesNotExist => (Return (Some (IdList ids)), w)
    | Raise e => (Raise e, w)
    end.
Proof.
  unfold check_already_loaded, try_except. rewrite bind_run, Dataset_objects_get_run.
  destruct (get_result A path p (db_datasets w)) as [dataset|e].
  - cbv zeta. destruct (decide (already_loaded d dataset)) as [H|H].
    + rewrite decide_True by exact H. reflexivity.
    + rewrite decide_False by exact H. reflexivity.
  - destruct e; reflexivity.
Qed.

Lemma offer_extra_samples_run v d w :
  ∃ w', offer_extra_samples o add_or_update p yes v d w = (Return (), w')
        ∧ db_datasets w' = db_datasets w ∧ db_samples w' = db_samples w
        ∧ log w' = log w.
Proof.
  unfold offer_extra_samples. case_decide; [destruct yes|]; eexists; split; try reflexivity;
    done.
Qed.

Lemma add_samples_cons s vals r : add_samples (s :: vals) r = add_samples vals (add_sample s r).
Proof. reflexivity. Qed.

Lemma add_samples_fields vals r :
  dataset_id (add_samples vals r) = dataset_id r
  ∧ analysis_type (add_samples vals r) = analysis_type r
  ∧ source_file_path (add_samples vals r) = source_file_path r
  ∧ is_loaded (add_samples vals r) = is_loaded r.
Proof.
  revert r. induction vals as [|s vals IH]; intros r; [done|].
  rewrite add_samples_cons. destruct (IH (add_sample s r)) as (-> & -> & -> & ->). done.
Qed.

Lemma link_rows_cons id0 s vals rows :
  link_rows id0 (s :: vals) rows
  = link_rows id0 vals
      ((λ r, if decide (dataset_id r = id0) then add_sample s r else r) <$> rows).
Proof.
  unfold link_rows. rewrite <- list_fmap_compose. apply list_fmap_ext.
  intros _ r _. unfold compose. destruct (decide (dataset_id r = id0)) as [Hr|Hr].
  - rewrite decide_True by done. done.
  - rewrite decide_False by done. done.
Qed.

Lemma link_rows_nil id0 rows : link_rows id0 [] rows = rows.
Proof.
  unfold link_rows. rewrite <- (list_fmap_id rows) at 2. apply list_fmap_ext.
  intros _ r _. by case_decide.
Qed.

Lemma link_all_run id0 (kvs : list (string * SampleValue)) :
  Forall (λ kv, ∃ s, kv.2 = SampleRecord s) kvs → ∀ w,
  ∃ w', for_each (λ _ kv, samples_add id0 kv.2) kvs () w = (Return (), w')
        ∧ db_datasets w'
          = link_rows id0
              (omap (λ kv : string * SampleValue,
                       match kv.2 with SampleRecord s => Some s | Placeholder => None end) kvs)
              (db_datasets w)
        ∧ db_samples w' = db_samples w ∧ db_individuals w' = db_individuals w.
Proof.
  induction 1 as [|kv kvs [s Hs] _ IH]; intros w.
  - exists w. split; [done|]. cbn [omap list_omap]. by rewrite link_rows_nil.
  - cbn [for_each]. rewrite bind_run, Hs. cbn [samples_add].
    destruct (IH {| db_individuals := db_individuals w; db_samples := db_samples w;
                    db_datasets := (λ d, if decide (dataset_id d = id0)
                                         then add_sample s d else d) <$> db_datasets w;
                    log := log w; compared := compared w |})
      as (w' & -> & Hds & Hss & His).
    exists w'. split; [done|]. split; [|done].
    rewrite Hds. cbn [omap list_omap]. rewrite Hs. simpl. by rewrite link_rows_cons.
Qed.

Lemma samples_of_project_records d :
  samples_of_project p d →
  Forall (λ kv : string * SampleValue, ∃ s, kv.2 = SampleRecord s) (map_to_list d).
Proof.
  intros Hd. apply Forall_forall. intros [k v] Hkv.
  apply elem_of_map_to_list in Hkv. destruct (Hd k v Hkv) as (s & -> & _). eauto.
Qed.

Lemma create_and_link_datasets d w :
  samples_of_project p d →
  db_datasets (create_and_link A is_loaded_default p path d w).2
  = if decide (0 < size d)%nat then
      match get_result A path p (db_datasets w) with
      | Return dataset => link_rows (dataset_id dataset) (dict_samples d) (db_datasets w)
      | Raise ObjectDoesNotExist =>
          link_rows (fresh_dataset_id (db_datasets w)) (dict_samples d)
            (db_datasets w ++ [ {| dataset_id := fresh_dataset_id (db_datasets w);
                                   analysis_type := A; source_file_path := path;
                                   is_loaded := is_loaded_default; samples := [] |} ])
      | Raise _ => db_datasets w
      end
    else db_datasets w.
Proof.
  intros Hd. apply samples_of_project_records in Hd.
  unfold create_and_link. case_decide; [|done].
  rewrite bind_run. unfold try_except. rewrite Dataset_objects_get_run.
  destruct (get_result A path p (db_datasets w)) as [dataset|e].
  - rewrite bind_run.
    destruct (link_all_run (dataset_id dataset) (map_to_list d) Hd w) as (w' & -> & Hds & _).
    simpl. exact Hds.
  - destruct e; try reflexivity.
    rewrite decide_True by done. rewrite bind_run. cbn [logger_info].
    unfold Dataset_objects_create. cbv beta iota zeta. rewrite bind_run.
    match goal with |- context [for_each (λ _ kv, samples_add ?i kv.2) _ () ?w1] =>
      destruct (link_all_run i (map_to_list d) Hd w1) as (w' & Hrun & Hds & _);
      rewrite Hrun end.
    simpl. exact Hds.
Qed.

(** The Dataset table after [link_dataset] is [linked_datasets] of the table
    before. *)
Lemma link_dataset_datasets ids d w :
  samples_of_project p d →
  db_datasets (link_dataset o A is_loaded_default add_or_update p path vo yes ids d w).2
  = linked_datasets A is_loaded_default p path vo d (db_datasets w).
Proof.
  intros Hd. unfold link_dataset, linked_datasets.
  rewrite bind_run, check_already_loaded_run.
  destruct (get_result A path p (db_datasets w)) as [dataset|e] eqn:Hg.
  - destruct (decide (already_loaded d dataset)); [reflexivity|].
    destruct vo; [reflexivity|]. rewrite bind_run.
    destruct (offer_extra_samples_run (IdSet (dom d)) d w) as (w' & -> & Hds & _).
    rewrite create_and_link_datasets by done. rewrite Hds, Hg. reflexivity.
  - destruct e; try reflexivity.
    destruct vo; [reflexivity|]. rewrite bind_run.
    destruct (offer_extra_samples_run (IdList ids) d w) as (w' & -> & Hds & _).
    rewrite create_and_link_datasets by done. rewrite Hds, Hg. reflexivity.
Qed.

(** The short circuit of lines 82-84: nothing but one log line. *)
Lemma link_dataset_already_loaded ids d w dataset :
  get_result A path p (db_datasets w) = Return dataset → already_loaded d dataset →
  link_dataset o A is_loaded_default add_or_update p path vo yes ids d w
  = (Return (), (logger_info (AlreadyLoaded (size (dom d))) w).2).
Proof.
  intros Hg Hl. unfold link_dataset. rewrite bind_run, check_already_loaded_run, Hg.
  rewrite decide_True by done. reflexivity.
Qed.

(** *** Samples linked to a row *)

Lemma add_sample_noop s r : sample_pk s ∈ sample_pk <$> samples r → add_sample s r = r.
Proof. intros Hin. unfold add_sample. rewrite decide_True by done. by destruct r. Qed.

Lemma add_sample_mono s r x : x ∈ samples r → x ∈ samples (add_sample s r).
Proof. unfold add_sample. simpl. case_decide; set_solver. Qed.

Lemma add_sample_linked s r : sample_pk s ∈ sample_pk <$> samples (add_sample s r).
Proof.
  unfold add_sample. simpl. case_decide; [done|].
  rewrite fmap_app. set_solver.
Qed.

Lemma add_samples_mono vals r x : x ∈ samples r → x ∈ samples (add_samples vals r).
Proof.
  revert r. induction vals as [|s vals IH]; intros r Hx; [done|].
  rewrite add_samples_cons. by apply IH, add_sample_mono.
Qed.

Lemma add_samples_pk_mono vals r k :
  k ∈ sample_pk <$> samples r → k ∈ sample_pk <$> samples (add_samples vals r).
Proof.
  intros (x & -> & Hx)%list_elem_of_fmap. apply list_elem_of_fmap.
  exists x. split; [done | by apply add_samples_mono].
Qed.

Lemma add_samples_linked vals r s :
  s ∈ vals → sample_pk s ∈ sample_pk <$> samples (add_samples vals r).
Proof.
  revert r. induction vals as [|s' vals IH]; intros r Hs; [by apply elem_of_nil in Hs|].
  rewrite add_samples_cons. apply elem_of_cons in Hs as [->|Hs]; [|by apply IH].
  apply add_samples_pk_mono, add_sample_linked.
Qed.

Lemma add_samples_noop vals r :
  (∀ s, s ∈ vals → sample_pk s ∈ sample_pk <$> samples r) → add_samples vals r = r.
Proof.
  induction vals as [|s vals IH]; intros Hall; [done|].
  rewrite add_samples_cons, add_sample_noop by set_solver. apply IH. set_solver.
Qed.

(** Linking samples that are linked already changes nothing. *)
Lemma add_samples_idem vals r : add_samples vals (add_samples vals r) = add_samples vals r.
Proof. apply add_samples_noop. intros s Hs. by apply add_samples_linked. Qed.

Lemma link_rows_idem id0 vals rows :
  link_rows id0 vals (link_rows id0 vals rows) = link_rows id0 vals rows.
Proof.
  unfold link_rows. rewrite <- list_fmap_compose. apply list_fmap_ext.
  intros _ r _. unfold compose. destruct (decide (dataset_id r = id0)) as [Hr|Hr].
  - destruct (add_samples_fields vals r) as (Hid & _).
    rewrite decide_True by (by rewrite Hid). apply add_samples_idem.
  - rewrite decide_False by done. done.
Qed.

Lemma dataset_matches_add_samples vals r :
  dataset_matches A path p r → dataset_matches A path p (add_samples vals r).
Proof.
  intros (HA & Hpath & Hex). destruct (add_samples_fields vals r) as (_ & HA' & Hp' & _).
  split; [congruence|]. split; [congruence|].
  apply Exists_exists in Hex as (x & Hx & Hxp). apply Exists_exists.
  exists x. split; [by apply add_samples_mono | done].
Qed.

Lemma dict_samples_cons d :
  samples_of_project p d → (0 < size d)%nat →
  ∃ s vals, dict_samples d = s :: vals ∧ in_project p (individual s).
Proof.
  intros Hd Hsize. unfold dict_samples.
  destruct (map_to_list d) as [|[k v] kvs] eqn:Hl.
  - apply map_to_list_empty_iff in Hl. subst d. rewrite map_size_empty in Hsize. lia.
  - assert (Hkv : d !! k = Some v) by (apply elem_of_map_to_list; rewrite Hl; set_solver).
    destruct (Hd k v Hkv) as (s & -> & Hs). cbn [omap list_omap]. simpl. eauto.
Qed.

Lemma dataset_matches_new id0 il s vals :
  in_project p (individual s) →
  dataset_matches A path p
    (add_samples (s :: vals)
       {| dataset_id := id0; analysis_type := A; source_file_path := path;
          is_loaded := il; samples := [] |}).
Proof.
  intros Hs. rewrite add_samples_cons. apply dataset_matches_add_samples.
  unfold add_sample, dataset_matches. simpl. split; [done|]. split; [done|].
  apply Exists_cons_hd. exact Hs.
Qed.

(** *** The rows the lookup selects *)

Lemma filter_fmap {X Y} (P : Y → Prop) `{!∀ y, Decision (P y)} (f : X → Y) (l : list X) :
  filter P (f <$> l) = f <$> filter (λ x, P (f x)) l.
Proof.
  induction l as [|x l IH]; [done|].
  rewrite fmap_cons, !filter_cons. case_decide; rewrite IH; done.
Qed.

Lemma filter_ext_in {X} (P Q : X → Prop) `{!∀ x, Decision (P x), !∀ x, Decision (Q x)}
    (l : list X) :
  (∀ x, x ∈ l → P x ↔ Q x) → filter P l = filter Q l.
Proof.
  induction l as [|x l IH]; intros Hext; [done|].
  rewrite !filter_cons, IH by (intros; apply Hext; set_solver).
  destruct (Hext x) as [H1 H2]; [set_solver|]. repeat case_decide; tauto.
Qed.

Lemma get_result_Return rows ds :
  get_result A path p rows = Return ds ↔ selected A path p rows = [ds].
Proof.
  unfold get_result. destruct (selected A path p rows) as [|? [|? ?]]; split; congruence.
Qed.

Lemma get_result_not_exist rows :
  get_result A path p rows = Raise ObjectDoesNotExist ↔ selected A path p rows = [].
Proof.
  unfold get_result. destruct (selected A path p rows) as [|? [|? ?]]; split; congruence.
Qed.

Lemma elem_of_selected rows r :
  r ∈ selected A path p rows
  ↔ r ∈ rows ∧ ∃ r', r' ∈ rows ∧ dataset_matches A path p r'
                     ∧ dataset_id r' = dataset_id r.
Proof.
  unfold selected. rewrite list_elem_of_filter, list_elem_of_fmap. split.
  - intros [(r' & Hid & Hr') Hr]. split; [done|]. exists r'.
    apply list_elem_of_filter in Hr' as [? ?]. done.
  - intros [Hr (r' & Hr' & Hm & Hid)]. split; [|done]. exists r'. split; [done|].
    apply list_elem_of_filter. done.
Qed.

Lemma selected_one rows ds :
  selected A path p rows = [ds] →
  ds ∈ rows ∧ dataset_matches A path p ds
  ∧ ∀ r, r ∈ rows → dataset_id r = dataset_id ds → r = ds.
Proof.
  intros Hsel.
  assert (Hds : ds ∈ selected A path p rows) by (rewrite Hsel; set_solver).
  apply elem_of_selected in Hds as [Hds (r' & Hr' & Hm & Hid)].
  assert (Hr's : r' ∈ selected A path p rows) by (apply elem_of_selected; eauto).
  rewrite Hsel in Hr's. apply list_elem_of_singleton in Hr's as ->.
  split; [done|]. split; [done|]. intros r Hr Heq.
  assert (Hrs : r ∈ selected A path p rows) by (apply elem_of_selected; eauto).
  rewrite Hsel in Hrs. by apply list_elem_of_singleton in Hrs.
Qed.

Lemma selected_none rows r :
  selected A path p rows = [] → r ∈ rows → ¬ dataset_matches A path p r.
Proof.
  intros Hsel Hr Hm.
  assert (Hrs : r ∈ selected A path p rows) by (apply elem_of_selected; eauto).
  rewrite Hsel in Hrs. by apply elem_of_nil in Hrs.
Qed.

(** After linking to the selected row, the lookup selects that row again. *)
Lemma selected_link_rows rows ds vals :
  selected A path p rows = [ds] →
  selected A path p (link_rows (dataset_id ds) vals rows) = [add_samples vals ds].
Proof.
  intros Hsel. destruct (selected_one rows ds Hsel) as (Hds & Hm & Huniq).
  set (upd := λ r, if decide (dataset_id r = dataset_id ds) then add_samples vals r else r).
  assert (Hid : ∀ r, dataset_id (upd r) = dataset_id r).
  { intros r. unfold upd. case_decide; [|done]. apply add_samples_fields. }
  assert (Hiff : ∀ r, r ∈ rows →
            dataset_matches A path p (upd r) ↔ dataset_matches A path p r).
  { intros r Hr. unfold upd. case_decide as Heq; [|done].
    rewrite (Huniq r Hr Heq). split; [done|]. intros _.
    by apply dataset_matches_add_samples. }
  assert (Hids : dataset_id <$> filter (dataset_matches A path p) (upd <$> rows)
                 = dataset_id <$> filter (dataset_matches A path p) rows).
  { rewrite filter_fmap, <- list_fmap_compose.
    rewrite (filter_ext_in _ (dataset_matches A path p)) by exact Hiff.
    apply list_fmap_ext. intros _ r _. apply Hid. }
  unfold selected, link_rows. fold upd. rewrite Hids, filter_fmap.
  rewrite (filter_ext_in _ (λ r, dataset_id r ∈ dataset_id <$>
                                   filter (dataset_matches A path p) rows)).
  2:{ intros r _. by rewrite Hid. }
  fold (selected A path p rows). rewrite Hsel. simpl. unfold upd.
  by rewrite decide_True.
Qed.

Lemma fresh_dataset_id_gt rows r : r ∈ rows → dataset_id r < fresh_dataset_id rows.
Proof.
  unfold fresh_dataset_id. induction rows as [|x rows IH]; intros Hr.
  - by apply elem_of_nil in Hr.
  - rewrite fmap_cons. cbn [foldr].
    apply elem_of_cons in Hr as [->|Hr]; [lia|]. specialize (IH Hr). lia.
Qed.

Lemma link_rows_app id0 vals rows1 rows2 :
  link_rows id0 vals (rows1 ++ rows2) = link_rows id0 vals rows1 ++ link_rows id0 vals rows2.
Proof. unfold link_rows. apply fmap_app. Qed.

Lemma link_rows_other id0 vals rows :
  (∀ r, r ∈ rows → dataset_id r ≠ id0) → link_rows id0 vals rows = rows.
Proof.
  intros Hne. unfold link_rows. rewrite <- (list_fmap_id rows) at 2.
  apply list_fmap_ext. intros i r Hr. rewrite decide_False; [done|].
  apply Hne. by eapply list_elem_of_lookup_2.
Qed.

(** After creating a dataset and linking to it, the lookup selects it. *)
Lemma selected_created rows il s vals :
  selected A path p rows = [] → in_project p (individual s) →
  let new := {| dataset_id := fresh_dataset_id rows; analysis_type := A;
                source_file_path := path; is_loaded := il; samples := [] |} in
  link_rows (fresh_dataset_id rows) (s :: vals) (rows ++ [new])
  = rows ++ [add_samples (s :: vals) new]
  ∧ selected A path p (rows ++ [add_samples (s :: vals) new])
    = [add_samples (s :: vals) new].
Proof.
  intros Hsel Hs new.
  assert (Hfresh : ∀ r, r ∈ rows → dataset_id r ≠ fresh_dataset_id rows).
  { intros r Hr. apply fresh_dataset_id_gt in Hr. lia. }
  assert (Hnid : dataset_id (add_samples (s :: vals) new) = fresh_dataset_id rows).
  { destruct (add_samples_fields (s :: vals) new) as (-> & _). done. }
  assert (Hnm : dataset_matches A path p (add_samples (s :: vals) new))
    by by apply dataset_matches_new.
  split.
  - rewrite link_rows_app, link_rows_other by done.
    unfold link_rows. simpl. by rewrite decide_True.
  - set (new' := add_samples (s :: vals) new) in *.
    assert (Hf : filter (dataset_matches A path p) (rows ++ [new']) = [new']).
    { rewrite filter_app.
      assert (filter (dataset_matches A path p) rows = []) as ->.
      { destruct (filter _ rows) as [|r l] eqn:Hfl; [done|].
        assert (Hr : r ∈ filter (dataset_matches A path p) rows) by (rewrite Hfl; set_solver).
        apply list_elem_of_filter in Hr as [Hm Hr]. by destruct (selected_none rows r). }
      rewrite filter_cons, decide_True by done. done. }
    unfold selected. rewrite Hf, filter_app. simpl.
    assert (filter (λ d, dataset_id d ∈ [dataset_id new']) rows = []) as ->.
    { destruct (filter _ rows) as [|r l] eqn:Hfl; [done|].
      assert (Hr : r ∈ filter (λ d, dataset_id d ∈ [dataset_id new']) rows)
        by (rewrite Hfl; set_solver).
      apply list_elem_of_filter in Hr as [Hid Hr]. apply list_elem_of_singleton in Hid.
      destruct (Hfresh r Hr). congruence. }
    rewrite filter_cons, decide_True by set_solver. done.
Qed.

(** Linking is idempotent on the Dataset table. *)
Lemma linked_datasets_idem d rows :
  samples_of_project p d →
  linked_datasets A is_loaded_default p path vo d
    (linked_datasets A is_loaded_default p path vo d rows)
  = linked_datasets A is_loaded_default p path vo d rows.
Proof.
  intros Hd.
  assert (Hfix : ∀ rows', linked_datasets A is_loaded_default p path vo d rows = rows' →
            (rows' = rows
             ∨ ∃ ds, get_result A path p rows' = Return ds
                     ∧ link_rows (dataset_id ds) (dict_samples d) rows' = rows'
                     ∧ vo = false) →
            linked_datasets A is_loaded_default p path vo d rows' = rows').
  { intros rows' Heq [->|(ds & Hg & Hl & ->)]; [done|].
    unfold linked_datasets. rewrite Hg. repeat case_decide; done. }
  destruct (get_result A path p rows) as [ds|e] eqn:Hg.
  - apply Hfix; [done|]. unfold linked_datasets. rewrite Hg.
    destruct (decide (already_loaded d ds)); [by left|].
    destruct vo; [by left|]. case_decide; [|by left]. right.
    apply get_result_Return in Hg.
    exists (add_samples (dict_samples d) ds). split; [|split; [|done]].
    + apply get_result_Return. by apply selected_link_rows.
    + destruct (add_samples_fields (dict_samples d) ds) as (-> & _).
      apply link_rows_idem.
  - apply Hfix; [done|]. unfold linked_datasets. rewrite Hg.
    destruct e; try by left.
    destruct vo; [by left|]. case_decide as Hsize; [|by left]. right.
    apply get_result_not_exist in Hg.
    destruct (dict_samples_cons d Hd Hsize) as (s & vals & Hvals & Hs). rewrite Hvals.
    destruct (selected_created rows is_loaded_default s vals Hg Hs) as [Hlink Hsel].
    eexists. split; [|split; [|done]].
    + apply get_result_Return. rewrite Hlink. exact Hsel.
    + destruct (add_samples_fields (s :: vals)
                  {| dataset_id := fresh_dataset_id rows; analysis_type := A;
                     source_file_path := path; is_loaded := is_loaded_default;
                     samples := [] |}) as (-> & _).
      cbn [dataset_id]. apply link_rows_idem.
Qed.

End LinkerFacts.

(** Not validate-only, the matcher returns a dict whose values are Samples of
    individuals of the project: what [link_dataset] is given. *)
Lemma matcher_returns_samples_of_project o p t max ids w d :
  (_match_vcf_id_to_sample_id o p t false max ids w).1 = Return d →
  samples_of_project p d.
Proof.
  destruct (match_run o p t false max ids w)
    as (d1 & d2 & r & w' & Hrun & H1 & [H2in H2out] & H3 & _ & Hext).
  rewrite Hrun. simpl. intros ->. destruct H3 as [-> _]. intros k v Hk.
  destruct (decide (k ∈ (list_to_set ids : gset string) ∖ dom d1
                    ∧ k ∈ individual_id <$> all_individuals_of p w)) as [[HkR Hkl]|Hno].
  - destruct (H2in k HkR Hkl) as (v' & Hv' & s & -> & _ & _ & Hs & _).
    rewrite Hk in Hv'. injection Hv' as ->. exists s. split; [done|].
    apply list_elem_of_filter in Hs as [Hs _]. exact Hs.
  - rewrite H2out in Hk by done. rewrite H1 in Hk. case_decide; [|done].
    destruct (existing_samples_of_this_type p t w !! k) as [s|] eqn:Hs; [|done].
    injection Hk as <-. exists s. split; [done|].
    apply sample_id_dict_Some in Hs as [Hs _].
    apply list_elem_of_filter in Hs as [[Hs _] _]. exact Hs.
Qed.

(** C8: for a dict of Samples of the project, running the linker a second
    time leaves the Dataset table exactly as the first run left it (no new
    row, no new link); linking a sample that is linked already changes
    nothing and keeps the links free of duplicates; and when the lookup finds
    a loaded dataset that has every key of the dict among its sample ids, the
    linker only logs that all samples are loaded and returns. *)
Theorem link_dataset_idempotent o A il add_or_update p path vo yes ids d w :
  samples_of_project p d →
  let link := link_dataset o A il add_or_update p path vo yes ids d in
  db_datasets (link (link w).2).2 = db_datasets (link w).2
  ∧ (∀ s r, sample_pk s ∈ sample_pk <$> samples r → add_sample s r = r)
  ∧ (∀ s r, NoDup (sample_pk <$> samples r) →
            NoDup (sample_pk <$> samples (add_sample s r)))
  ∧ (∀ dataset,
       Dataset_objects_get A path p w = (Return dataset, w) →
       is_loaded dataset = true →
       (∀ k, k ∈ dom d → k ∈ sample_id <$> samples dataset) →
       (link w).1 = Return ()
       ∧ db_datasets (link w).2 = db_datasets w ∧ db_samples (link w).2 = db_samples w
       ∧ db_individuals (link w).2 = db_individuals w
       ∧ log (link w).2 = log w ++ [AlreadyLoaded (size (dom d))]).
Proof.
  intros Hd link. split; [|split; [|split]].
  - subst link. rewrite !link_dataset_datasets by done. by apply linked_datasets_idem.
  - apply add_sample_noop.
  - intros s r Hnd. unfold add_sample. simpl. case_decide as Hin; [done|].
    rewrite fmap_app. apply NoDup_app. split; [done|]. split; [|apply NoDup_singleton].
    intros k Hk ->%list_elem_of_singleton. done.
  - intros dataset Hget Hloaded Hall. subst link.
    rewrite Dataset_objects_get_run in Hget. injection Hget as Hget.
    rewrite (link_dataset_already_loaded o A il add_or_update p path vo yes ids d w dataset);
      [done | done |].
    split; [done|]. apply size_empty_iff. intros k. split; [|set_solver].
    intros [Hk Hnk]%elem_of_difference. destruct Hnk.
    apply elem_of_list_to_set. by apply Hall.
Qed.

Lemma link_dataset_idempotent_witness :
  let s := {| sample_pk := 7; sample_id := "S1"; sample_type := "WES";
              individual := individual_of "I1" |} in
  let d : gmap string SampleValue := {[ "S1" := SampleRecord s ]} in
  let link := link_dataset elements_order "VARIANTS" false (λ _ _ l, l) "P" "a.vcf" false true
                ["S1"] d in
  samples_of_project "P" d
  ∧ (db_datasets (link sampled_world).2
     = [ {| dataset_id := 1; analysis_type := "VARIANTS"; source_file_path := "a.vcf";
            is_loaded := false; samples := [s] |} ]
     ∧ db_datasets (link (link sampled_world).2).2 = db_datasets (link sampled_world).2)
  ∧ (link loaded_world).1 = Return ()
  ∧ db_datasets (link loaded_world).2 = db_datasets loaded_world
  ∧ log (link loaded_world).2 = [AlreadyLoaded 1].
Proof.
  intros s d link.
  assert (Hd : samples_of_project "P" d).
  { intros k v Hk. apply lookup_singleton_Some in Hk as [_ <-]. exists s. split; reflexivity. }
  split; [exact Hd|]. split.
  { split; [vm_compute; reflexivity|].
    apply (link_dataset_idempotent elements_order "VARIANTS" false (λ _ _ l, l) "P" "a.vcf"
             false true ["S1"] d sampled_world Hd). }
  destruct (link_dataset_idempotent elements_order "VARIANTS" false (λ _ _ l, l) "P" "a.vcf"
              false true ["S1"] d loaded_world Hd) as (_ & _ & _ & Hshort).
  destruct (Hshort {| dataset_id := 3; analysis_type := "VARIANTS";
                      source_file_path := "a.vcf"; is_loaded := true; samples := [s] |})
    as (Hret & Hds & _ & _ & Hlog).
  - vm_compute. reflexivity.
  - reflexivity.
  - intros k Hk. apply elem_of_dom in Hk as [v Hk].
    apply lookup_singleton_Some in Hk as [<- _]. vm_compute. apply list_elem_of_here.
  - split; [exact Hret|]. split; [exact Hds|]. exact Hlog.
Defined.

(** ** What does not depend on the iteration order *)

Lemma for_each_same_tables {X S} (body : S → X → M S) (l : list X) :
  (∀ s x w w', same_tables w w' →
     (body s x w).1 = (body s x w').1 ∧ same_tables (body s x w).2 (body s x w').2) →
  ∀ s w w', same_tables w w' →
    (for_each body l s w).1 = (for_each body l s w').1
    ∧ same_tables (for_each body l s w).2 (for_each body l s w').2.
Proof.
  intros Hbody. induction l as [|x l IH]; intros s w w' Hw; [done|].
  cbn [for_each]. rewrite !bind_run. destruct (Hbody s x w w' Hw) as [Hr Ht].
  destruct (body s x w) as [[s1|e1] w1], (body s x w') as [[s2|e2] w2]; simpl in *;
    try discriminate.
  - injection Hr as ->. by apply IH.
  - done.
Qed.

Lemma step2_same_tables t vo X l d w w' :
  same_tables w w' →
  (step2 t vo X l d w).1 = (step2 t vo X l d w').1
  ∧ same_tables (step2 t vo X l d w).2 (step2 t vo X l d w').2.
Proof.
  intros Hw. unfold step2. case_decide; [|done].
  apply for_each_same_tables; [|done]. clear. intros st i w w' (Hi & Hs & Hd).
  unfold step2_body. case_decide; [|done].
  destruct vo; unfold same_tables; simpl; rewrite ?Hi, ?Hs, ?Hd; done.
Qed.

(** Whenever two runs on the same input return, under any two iteration
    orders, they return the same dict. *)
Lemma matcher_returns_same_dict o1 o2 p t vo max ids w d d' :
  (_match_vcf_id_to_sample_id o1 p t vo max ids w).1 = Return d →
  (_match_vcf_id_to_sample_id o2 p t vo max ids w).1 = Return d' →
  d = d'.
Proof.
  rewrite !match_eq. cbv zeta.
  set (X := list_to_set ids : gset string).
  set (w0 := (logger_info (SampleIdsFound (List.length ids) ids) w).2).
  destruct (step1_run o1 p t X w0) as (d1 & w1 & -> & Hd1 & Hext1).
  destruct (step1_run o2 p t X w0) as (d1' & w1' & -> & Hd1' & Hext1').
  assert (d1' = d1) as ->.
  { apply map_eq. intros k. by rewrite Hd1, Hd1'. }
  assert (Hw : same_tables w1 w1').
  { destruct (extends_new_samples _ _ _ _ _ Hext1) as [Hs1 HF1].
    destruct (extends_new_samples _ _ _ _ _ Hext1') as [Hs2 HF2].
    destruct (new_samples w0 w1) as [|? ?]; [|by apply Forall_cons in HF1 as [[] _]].
    destruct (new_samples w0 w1') as [|? ?]; [|by apply Forall_cons in HF2 as [[] _]].
    split; [|split].
    - by rewrite (ext_individuals _ _ _ _ _ Hext1), (ext_individuals _ _ _ _ _ Hext1').
    - by rewrite Hs1, Hs2.
    - by rewrite (ext_datasets _ _ _ _ _ Hext1), (ext_datasets _ _ _ _ _ Hext1'). }
  assert (Hl : all_individuals_of p w1' = all_individuals_of p w1).
  { unfold all_individuals_of. by destruct Hw as [-> _]. }
  rewrite Hl, !bind_run.
  destruct (step2_same_tables t vo X (all_individuals_of p w1) d1 w1 w1' Hw) as [Hr _].
  destruct (step2 t vo X (all_individuals_of p w1) d1 w1) as [[st|e] w2],
           (step2 t vo X (all_individuals_of p w1) d1 w1') as [[st'|e'] w2'];
    simpl in Hr; try discriminate; try done.
  injection Hr as <-. rewrite !bind_run.
  destruct (step3_spec o1 t vo max X (all_individuals_of p w1) st w2) as [_ H3].
  destruct (step3_spec o2 t vo max X (all_individuals_of p w1) st w2') as [_ H3'].
  destruct (step3 o1 _ _ _ _ _ _ w2) as [[d3|?] w3]; simpl in H3; [|done].
  destruct (step3 o2 _ _ _ _ _ _ w2') as [[d3'|?] w3']; simpl in H3'; [|done].
  destruct H3 as [-> _], H3' as [-> _]. rewrite !bind_run.
  destruct (print_stats X st.1 w3) as [[[]|?] ?]; [|done].
  destruct (print_stats X st.1 w3') as [[[]|?] ?]; [|done].
  simpl. congruence.
Qed.

(** * Further properties of the matcher *)

(** X1: the matcher never changes the Individual or the Dataset table and
    never alters a Sample that exists; it only appends Samples, each of the
    requested type, named after an individual of the project whose id is one
    of the vcf ids; a validate-only run appends none.  This holds whether the
    run returns or raises. *)
Theorem matcher_only_appends_samples o p t vo max ids w :
  let w' := (_match_vcf_id_to_sample_id o p t vo max ids w).2 in
  db_individuals w' = db_individuals w
  ∧ db_datasets w' = db_datasets w
  ∧ db_samples w' = db_samples w ++ new_samples w w'
  ∧ (vo = true → new_samples w w' = [])
  ∧ ∀ s, s ∈ new_samples w w' →
         sample_type s = t ∧ sample_id s ∈ ids
         ∧ individual s ∈ all_individuals_of p w
         ∧ individual_id (individual s) = sample_id s.
Proof.
  destruct (match_run o p t vo max ids w) as (d1 & d2 & r & w' & Hrun & _ & _ & _ & _ & Hext).
  rewrite Hrun. simpl.
  destruct (extends_new_samples _ _ _ _ _ Hext) as [Hs HF].
  split; [apply Hext|]. split; [apply Hext|]. split; [exact Hs|]. split.
  - intros ->. destruct (new_samples w w') as [|s l]; [done|].
    by apply Forall_cons in HF as [[? _] _].
  - intros s Hs'. rewrite Forall_forall in HF.
    destruct (HF s Hs') as (_ & HsR & Ht & Hind & Hid).
    apply elem_of_difference in HsR as [HsX _]. apply elem_of_list_to_set in HsX. done.
Qed.

Lemma returned_dict_lookup o p t vo max ids w d :
  (_match_vcf_id_to_sample_id o p t vo max ids w).1 = Return d →
  ∃ d1, after_step1 (list_to_set ids) (existing_samples_of_this_type p t w) d1
        ∧ after_step2 vo t (list_to_set ids) (all_individuals_of p w) d1 d.
Proof.
  destruct (match_run o p t vo max ids w) as (d1 & d2 & r & w' & Hrun & H1 & H2 & H3 & _).
  rewrite Hrun. simpl. intros ->. destruct H3 as [-> _]. eauto.
Qed.

(** X2: the keys of the dict the matcher returns are exactly the vcf ids that
    are the sample id of an existing Sample of the type in the project or the
    individual id of an individual of the project. *)
Theorem returned_keys_are_the_exact_matches o p t vo max ids w d :
  (_match_vcf_id_to_sample_id o p t vo max ids w).1 = Return d →
  ∀ k, k ∈ dom d ↔
       k ∈ ids ∧ (is_Some (existing_samples_of_this_type p t w !! k)
                  ∨ k ∈ individual_id <$> all_individuals_of p w).
Proof.
  intros Hret k. destruct (returned_dict_lookup _ _ _ _ _ _ _ _ Hret) as (d1 & H1 & H2in & H2out).
  set (X := list_to_set ids : gset string) in *.
  assert (Hd1 : k ∈ dom d1 ↔ k ∈ ids ∧ is_Some (existing_samples_of_this_type p t w !! k)).
  { rewrite elem_of_dom, H1. unfold X. case_decide as HkX.
    - apply elem_of_list_to_set in HkX. rewrite fmap_is_Some. tauto.
    - rewrite elem_of_list_to_set in HkX. split; [by intros [? ?] | tauto]. }
  destruct (decide (k ∈ X ∖ dom d1 ∧ k ∈ individual_id <$> all_individuals_of p w))
    as [[HkR Hkl]|Hno].
  - destruct (H2in k HkR Hkl) as (v & Hv & _).
    apply elem_of_difference in HkR as [HkX _]. apply elem_of_list_to_set in HkX.
    rewrite elem_of_dom, Hv. split; [auto | eauto].
  - rewrite elem_of_dom, H2out, <- elem_of_dom, Hd1 by done. split; [tauto|].
    intros [Hk [?|Hkl]]; [done|]. split; [done|].
    destruct (decide (k ∈ dom d1)) as [Hin|Hout]; [by apply Hd1|].
    destruct Hno. split; [|done]. apply elem_of_difference.
    split; [by apply elem_of_list_to_set | done].
Qed.

Lemma returned_keys_are_the_exact_matches_witness :
  let d : gmap string SampleValue :=
    {[ "S1" := SampleRecord {| sample_pk := 7; sample_id := "S1"; sample_type := "WES";
                               individual := individual_of "I1" |};
       "I2" := SampleRecord {| sample_pk := 8; sample_id := "I2"; sample_type := "WES";
                               individual := individual_of "I2" |} ]} in
  "I2" ∈ dom d ↔
    "I2" ∈ ["S1"; "I2"; "ZZ"]
    ∧ (is_Some (existing_samples_of_this_type "P" "WES" sampled_world !! "I2")
       ∨ "I2" ∈ individual_id <$> all_individuals_of "P" sampled_world).
Proof.
  intros d.
  apply (returned_keys_are_the_exact_matches elements_order "P" "WES" false 0
           ["S1"; "I2"; "ZZ"] sampled_world d).
  vm_compute. reflexivity.
Defined.

(** X3: two runs of the matcher on the same input that both return, return
    the same dict, in whatever orders the sets are iterated. *)
Theorem returned_dict_is_order_independent o1 o2 p t vo max ids w d d' :
  (_match_vcf_id_to_sample_id o1 p t vo max ids w).1 = Return d →
  (_match_vcf_id_to_sample_id o2 p t vo max ids w).1 = Return d' →
  d = d'.
Proof. apply matcher_returns_same_dict. Qed.

Lemma returned_dict_is_order_independent_witness :
  let d : gmap string SampleValue :=
    {[ "S1" := SampleRecord {| sample_pk := 7; sample_id := "S1"; sample_type := "WES";
                               individual := individual_of "I1" |};
       "I2" := SampleRecord {| sample_pk := 8; sample_id := "I2"; sample_type := "WES";
                               individual := individual_of "I2" |} ]} in
  (_match_vcf_id_to_sample_id elements_order "P" "WES" false 0 ["S1"; "I2"; "ZZ"]
     sampled_world).1 = Return d
  ∧ (_match_vcf_id_to_sample_id reverse_order "P" "WES" false 0 ["S1"; "I2"; "ZZ"]
       sampled_world).1 = Return d
  ∧ d = d.
Proof.
  intros d.
  assert (H1 : (_match_vcf_id_to_sample_id elements_order "P" "WES" false 0
                  ["S1"; "I2"; "ZZ"] sampled_world).1 = Return d)
    by (vm_compute; reflexivity).
  assert (H2 : (_match_vcf_id_to_sample_id reverse_order "P" "WES" false 0
                  ["S1"; "I2"; "ZZ"] sampled_world).1 = Return d)
    by (vm_compute; reflexivity).
  split; [exact H1|]. split; [exact H2|].
  exact (returned_dict_is_order_independent elements_order reverse_order "P" "WES" false 0
           ["S1"; "I2"; "ZZ"] sampled_world d d H1 H2).
Defined.

(** X4: not validate-only, every key of the returned dict is bound to a
    Sample whose sample id is that key, of the requested type, owned by an
    individual of the project. *)
Theorem returned_values_are_samples_of_the_key o p t max ids w d k v :
  (_match_vcf_id_to_sample_id o p t false max ids w).1 = Return d →
  d !! k = Some v →
  ∃ s, v = SampleRecord s ∧ sample_id s = k ∧ sample_type s = t
       ∧ in_project p (individual s).
Proof.
  intros Hret Hk.
  destruct (returned_dict_lookup _ _ _ _ _ _ _ _ Hret) as (d1 & H1 & H2in & H2out).
  destruct (decide (k ∈ (list_to_set ids : gset string) ∖ dom d1
                    ∧ k ∈ individual_id <$> all_individuals_of p w)) as [[HkR Hkl]|Hno].
  - destruct (H2in k HkR Hkl) as (v' & Hv' & s & -> & Hid & Ht & Hs & _).
    rewrite Hk in Hv'. injection Hv' as ->. exists s. repeat split; try done.
    apply list_elem_of_filter in Hs as [Hs _]. exact Hs.
  - rewrite H2out in Hk by done. rewrite H1 in Hk. case_decide; [|done].
    destruct (existing_samples_of_this_type p t w !! k) as [s|] eqn:Hs; [|done].
    injection Hk as <-. exists s.
    apply sample_id_dict_Some in Hs as [Hs Hid].
    apply list_elem_of_filter in Hs as [[Hp Ht] _]. done.
Qed.

Lemma returned_values_are_samples_of_the_key_witness :
  ∃ s, SampleRecord {| sample_pk := 8; sample_id := "I2"; sample_type := "WES";
                       individual := individual_of "I2" |} = SampleRecord s
       ∧ sample_id s = "I2" ∧ sample_type s = "WES" ∧ in_project "P" (individual s).
Proof.
  apply (returned_values_are_samples_of_the_key elements_order "P" "WES" 0
           ["S1"; "I2"; "ZZ"] sampled_world
           {[ "S1" := SampleRecord {| sample_pk := 7; sample_id := "S1"; sample_type := "WES";
                                      individual := individual_of "I1" |};
              "I2" := SampleRecord {| sample_pk := 8; sample_id := "I2"; sample_type := "WES";
                                      individual := individual_of "I2" |} ]} "I2").
  - vm_compute. reflexivity.
  - vm_compute. reflexivity.
Defined.

Lemma not_validate_only_no_placeholder t X l d1 d2 :
  (∀ k v, d1 !! k = Some v → v ≠ Placeholder) →
  after_step2 false t X l d1 d2 → ¬ has_placeholder d2.
Proof.
  intros Hd1 [Hin Hout] [k Hk].
  destruct (decide (k ∈ X ∖ dom d1 ∧ k ∈ individual_id <$> l)) as [[HkR Hkl]|Hno].
  - destruct (Hin k HkR Hkl) as (v & Hv & s & -> & _). congruence.
  - rewrite Hout in Hk by done. by apply (Hd1 k Placeholder).
Qed.

Lemma after_step1_no_placeholder X ex d1 k v :
  after_step1 X ex d1 → d1 !! k = Some v → v ≠ Placeholder.
Proof.
  intros H1 Hk ->. rewrite H1 in Hk. case_decide; [|done]. by destruct (ex !! k).
Qed.

(** X5: with a threshold of 0 or less and not validate-only, the matcher
    always returns, and it never calls [compute_edit_distance]. *)
Theorem no_fuzzy_stage_without_threshold o p t max ids w :
  (max ≤ 0)%Z →
  let run := _match_vcf_id_to_sample_id o p t false max ids w in
  (∃ d, run.1 = Return d) ∧ new_compared w run.2 = [].
Proof.
  intros Hmax.
  destruct (match_run o p t false max ids w)
    as (d1 & d2 & r & w' & Hrun & H1 & H2 & H3 & _ & Hext).
  rewrite Hrun. simpl.
  assert (Hno : ¬ has_placeholder d2).
  { eapply not_validate_only_no_placeholder; [|exact H2].
    intros k v. by apply after_step1_no_placeholder with (1 := H1). }
  split.
  - destruct r as [d|e]; [eauto|]. simpl in H3.
    destruct H3 as [_ [[_ ?]|(_ & _ & ?)]]; [done | lia].
  - destruct (extends_new_compared _ _ _ _ _ Hext) as [_ HF].
    destruct (new_compared w w') as [|q l]; [done|].
    apply Forall_cons in HF as [(_ & _ & _ & _ & ?) _]. lia.
Qed.

Lemma no_fuzzy_stage_without_threshold_witness :
  let run := _match_vcf_id_to_sample_id elements_order "P" "WES" false 0 ["S1x"]
               (project_world ["S1"; "S9"]) in
  (∃ d, run.1 = Return d) ∧ new_compared (project_world ["S1"; "S9"]) run.2 = [].
Proof.
  apply (no_fuzzy_stage_without_threshold elements_order "P" "WES" 0 ["S1x"]
           (project_world ["S1"; "S9"])).
  lia.
Defined.

(** X6: when every vcf id is the sample id of an existing Sample of the type
    or the individual id of an individual of the project, the matcher
    returns, validate-only or not and whatever the threshold, and the
    returned dict has every vcf id as a key. *)
Theorem all_exact_matches_return o p t vo max ids w :
  (∀ k, k ∈ ids → is_Some (existing_samples_of_this_type p t w !! k)
                  ∨ k ∈ individual_id <$> all_individuals_of p w) →
  ∃ d, (_match_vcf_id_to_sample_id o p t vo max ids w).1 = Return d
       ∧ dom d = list_to_set ids.
Proof.
  intros Hall.
  destruct (match_run o p t vo max ids w)
    as (d1 & d2 & r & w' & Hrun & H1 & [H2in H2out] & H3 & _).
  rewrite Hrun. simpl.
  assert (Hdom : dom d2 = list_to_set ids).
  { apply set_eq. intros k. rewrite elem_of_list_to_set.
    destruct (decide (k ∈ (list_to_set ids : gset string) ∖ dom d1
                      ∧ k ∈ individual_id <$> all_individuals_of p w)) as [[HkR Hkl]|Hno].
    - destruct (H2in k HkR Hkl) as (v & Hv & _).
      apply elem_of_difference in HkR as [HkX _]. apply elem_of_list_to_set in HkX.
      rewrite elem_of_dom, Hv. split; [done | eauto].
    - rewrite elem_of_dom, H2out, H1 by done. case_decide as HkX.
      + apply elem_of_list_to_set in HkX. split; [done|]. intros _.
        destruct (Hall k HkX) as [Hex|Hkl]; [by rewrite fmap_is_Some|].
        destruct (decide (k ∈ dom d1)) as [Hin|Hout].
        * apply elem_of_dom in Hin. rewrite H1, decide_True in Hin; [done|].
          by apply elem_of_list_to_set.
        * destruct Hno. split; [|done]. apply elem_of_difference.
          split; [by apply elem_of_list_to_set | done].
      + rewrite elem_of_list_to_set in HkX. split; [by intros [? ?] | done]. }
  destruct r as [d|e]; simpl in H3.
  - destruct H3 as [-> _]. eauto.
  - destruct H3 as [Hne _]. destruct Hne. rewrite Hdom. set_solver.
Qed.

Lemma all_exact_matches_return_witness :
  ∃ d, (_match_vcf_id_to_sample_id elements_order "P" "WES" true 2 ["S1"; "I2"]
          sampled_world).1 = Return d
       ∧ dom d = list_to_set ["S1"; "I2"].
Proof.
  apply (all_exact_matches_return elements_order "P" "WES" true 2 ["S1"; "I2"] sampled_world).
  intros k Hk. apply elem_of_cons in Hk as [->|Hk].
  - left. vm_compute. eauto.
  - apply list_elem_of_singleton in Hk as ->. right. vm_compute.
    apply list_elem_of_further, list_elem_of_here.
Defined.

(** ** When the fuzzy stage raises *)

Section FuzzyStage.

Variable o : SetOrder.
Variables (t : string) (vo : bool) (max : Z).
Variable ind : Individual.

Lemma step3_inner_body_run v c i w :
  step3_inner_body (Some ind) v c i w
  = (let n := Z.of_nat (EditDistance.compute_edit_distance v i) in
     if decide (n < current_lowest_edit_distance c)%Z
     then Return {| current_lowest_edit_distance := n;
                    current_lowest_edit_distance_individual := Some [ind] |}
     else if decide (n = current_lowest_edit_distance c)
          then match current_lowest_edit_distance_individual c with
               | Some l => Return {| current_lowest_edit_distance :=
                                       current_lowest_edit_distance c;
                                     current_lowest_edit_distance_individual :=
                                       Some (l ++ [ind]) |}
               | None => Raise UnboundLocalError
               end
          else Return c,
     (call_compute_edit_distance v i w).2).
Proof.
  unfold step3_inner_body. rewrite bind_run. unfold call_compute_edit_distance at 1.
  cbv beta iota zeta. repeat case_decide; try reflexivity.
  destruct (current_lowest_edit_distance_individual c); reflexivity.
Qed.

(** Once the variable is assigned, the inner loop runs to its end. *)
Lemma inner_loop_assigned v l : ∀ c w,
  is_Some (current_lowest_edit_distance_individual c) →
  ∃ c' w', for_each (step3_inner_body (Some ind) v) l c w = (Return c', w')
           ∧ is_Some (current_lowest_edit_distance_individual c').
Proof.
  induction l as [|i l IH]; intros c w Hc; [by exists c, w|].
  cbn [for_each]. rewrite bind_run, step3_inner_body_run. cbv zeta.
  destruct Hc as [l0 Hc]. rewrite Hc.
  repeat case_decide; apply IH; simpl; eauto.
Qed.

Lemma first_within_cons n ns :
  first_within max (n :: ns)
  = if decide (Z.of_nat n ≤ max)%Z then Some n else first_within max ns.
Proof. unfold first_within. rewrite filter_cons. by case_decide. Qed.

Lemma first_within_app ns1 ns2 :
  first_within max (ns1 ++ ns2)
  = match first_within max ns1 with Some n => Some n | None => first_within max ns2 end.
Proof.
  induction ns1 as [|n ns1 IH]; [done|].
  rewrite <- app_comm_cons, !first_within_cons. by case_decide.
Qed.

(** Before the variable is assigned, the inner loop goes by the first
    distance that is not above the threshold. *)
Lemma inner_loop_unassigned v l : ∀ w,
  let c0 := {| current_lowest_edit_distance := max;
               current_lowest_edit_distance_individual := None |} in
  match first_within max (EditDistance.compute_edit_distance v <$> l) with
  | None => ∃ w', for_each (step3_inner_body (Some ind) v) l c0 w = (Return c0, w')
  | Some n =>
      if decide (Z.of_nat n = max)
      then ∃ w', for_each (step3_inner_body (Some ind) v) l c0 w
                 = (Raise UnboundLocalError, w')
      else ∃ c' w', for_each (step3_inner_body (Some ind) v) l c0 w = (Return c', w')
                    ∧ is_Some (current_lowest_edit_distance_individual c')
  end.
Proof.
  induction l as [|i l IH]; intros w c0; [by exists w|].
  rewrite fmap_cons, first_within_cons. cbn [for_each].
  rewrite bind_run, step3_inner_body_run. cbv zeta. subst c0. simpl.
  destruct (decide (Z.of_nat (EditDistance.compute_edit_distance v i) < max)%Z) as [Hlt|Hge].
  - rewrite decide_True by lia. rewrite decide_False by lia.
    apply inner_loop_assigned. simpl. eauto.
  - destruct (decide (Z.of_nat (EditDistance.compute_edit_distance v i) = max)) as [Heq|Hne].
    + rewrite decide_True by lia. rewrite decide_True by done. eauto.
    + rewrite decide_False by lia. apply IH.
Qed.

Lemma step3_outer_body_eq st v :
  step3_outer_body o t vo max (Some ind) st v
  = (c ← for_each (step3_inner_body (Some ind) v)
           (iter o (individual_ids_without_matching_sample_record st))
           {| current_lowest_edit_distance := max;
              current_lowest_edit_distance_individual := lowest_individual_var st |};
     mret {| vcf_sample_id_to_sample_record := vcf_sample_id_to_sample_record st;
             individual_ids_without_matching_sample_record :=
               individual_ids_without_matching_sample_record st;
             lowest_individual_var := current_lowest_edit_distance_individual c |}).
Proof. reflexivity. Qed.

Lemma outer_loop_assigned d pool vs : ∀ x w,
  ∃ x' w', for_each (step3_outer_body o t vo max (Some ind)) vs
             {| vcf_sample_id_to_sample_record := d;
                individual_ids_without_matching_sample_record := pool;
                lowest_individual_var := Some x |} w
           = (Return {| vcf_sample_id_to_sample_record := d;
                        individual_ids_without_matching_sample_record := pool;
                        lowest_individual_var := Some x' |}, w').
Proof.
  induction vs as [|v vs IH]; intros x w; [by exists x, w|].
  cbn [for_each]. rewrite bind_run, step3_outer_body_eq, bind_run. simpl.
  destruct (inner_loop_assigned v (iter o pool)
              {| current_lowest_edit_distance := max;
                 current_lowest_edit_distance_individual := Some x |} w)
    as (c' & w' & -> & [x' Hx']); [simpl; eauto|].
  simpl. rewrite Hx'. apply IH.
Qed.

Lemma outer_loop_unassigned d pool vs : ∀ w,
  let st0 := {| vcf_sample_id_to_sample_record := d;
                individual_ids_without_matching_sample_record := pool;
                lowest_individual_var := None |} in
  ∃ r w', for_each (step3_outer_body o t vo max (Some ind)) vs st0 w = (r, w')
    ∧ match first_within max
              (v ← vs; EditDistance.compute_edit_distance v <$> iter o pool) with
      | Some n => if decide (Z.of_nat n = max)
                  then r = Raise UnboundLocalError
                  else ∃ st', r = Return st' ∧ vcf_sample_id_to_sample_record st' = d
      | None => ∃ st', r = Return st' ∧ vcf_sample_id_to_sample_record st' = d
      end.
Proof.
  induction vs as [|v vs IH]; intros w st0.
  { exists (Return st0), w. split; [done|]. simpl. eauto. }
  cbn [for_each]. rewrite bind_run, step3_outer_body_eq, bind_run. subst st0. simpl.
  rewrite first_within_app.
  pose proof (inner_loop_unassigned v (iter o pool) w) as Hin. cbv zeta in Hin.
  destruct (first_within max (EditDistance.compute_edit_distance v <$> iter o pool))
    as [n|].
  - case_decide.
    + destruct Hin as (w' & ->). eauto.
    + destruct Hin as (c' & w' & -> & [x Hx]). simpl. rewrite Hx.
      destruct (outer_loop_assigned d pool vs x w') as (x' & w'' & ->).
      eexists _, _. split; [done|]. eauto.
  - destruct Hin as (w' & ->). simpl. apply IH.
Qed.

(** X7: in step 3, once the guard of the fuzzy stage holds, the stage either
    returns the dict it was given or raises UnboundLocalError, and which one
    is decided by the first computed distance that is not above the
    threshold: the stage raises exactly when that distance equals the
    threshold. *)
Theorem fuzzy_stage_raises_iff_first_hit_is_threshold
    (X : gset string) (l : list Individual) (d : gmap string SampleValue) (w : World) :
  ¬ has_placeholder d → X ∖ dom d ≠ ∅ →
  list_to_set (individual_id <$> l) ∖ individual_ids_with_record d ≠ (∅ : gset string) →
  (0 < max)%Z →
  (step3 o t vo max X l (d, Some ind) w).1
  = match first_within max
            (fuzzy_distances o (X ∖ dom d)
               (list_to_set (individual_id <$> l) ∖ individual_ids_with_record d)) with
    | Some n => if decide (Z.of_nat n = max) then Raise UnboundLocalError else Return d
    | None => Return d
    end.
Proof.
  intros Hno HR Hpool Hmax. unfold step3. cbn [fst snd].
  rewrite decide_True by by apply size_pos_iff.
  rewrite bind_run. fold (dict_values d).
  rewrite individual_ids_of_values_run by done.
  cbv zeta. rewrite decide_True by done. rewrite bind_run.
  destruct (outer_loop_unassigned d
              (list_to_set (individual_id <$> l) ∖ individual_ids_with_record d)
              (iter o (X ∖ dom d)) w) as (r & w' & -> & Hr).
  unfold fuzzy_distances.
  destruct (first_within max _) as [n|].
  - case_decide.
    + by subst r.
    + destruct Hr as (st' & -> & <-). reflexivity.
  - destruct Hr as (st' & -> & <-). reflexivity.
Qed.

End FuzzyStage.

Lemma fuzzy_stage_raises_iff_first_hit_is_threshold_witness :
  (step3 elements_order "WES" false 2 (list_to_set ["S1x"])
     [individual_of "S1"; individual_of "S9"] (∅, Some (individual_of "S9"))
     (project_world ["S1"; "S9"])).1
  = match first_within 2
            (fuzzy_distances elements_order (list_to_set ["S1x"] ∖ dom (∅ : gmap string SampleValue))
               (list_to_set (individual_id <$> [individual_of "S1"; individual_of "S9"])
                  ∖ individual_ids_with_record ∅)) with
    | Some n => if decide (Z.of_nat n = 2%Z) then Raise UnboundLocalError else Return ∅
    | None => Return ∅
    end.
Proof.
  apply (fuzzy_stage_raises_iff_first_hit_is_threshold elements_order "WES" false 2
           (individual_of "S9") (list_to_set ["S1x"])
           [individual_of "S1"; individual_of "S9"] ∅ (project_world ["S1"; "S9"])).
  - intros [k Hk]. by rewrite lookup_empty in Hk.
  - apply (bool_decide_unpack _). vm_compute. exact I.
  - apply (bool_decide_unpack _). vm_compute. exact I.
  - lia.
Defined.

(** * Further properties of the linking part of [handle] *)

Section LinkerMore.

Variable o : SetOrder.
Variable A : string.
Variable il : bool.
Variable add_or_update : string → list string → list Individual → list Individual.
Variables (p path : string) (yes : bool).

Lemma link_all_frame id0 (kvs : list (string * SampleValue)) : ∀ w,
  db_samples (for_each (λ _ kv, samples_add id0 kv.2) kvs () w).2 = db_samples w
  ∧ db_individuals (for_each (λ _ kv, samples_add id0 kv.2) kvs () w).2 = db_individuals w.
Proof.
  induction kvs as [|kv kvs IH]; intros w; [done|].
  cbn [for_each]. rewrite bind_run. destruct kv.2 as [s|]; [|done].
  cbn [samples_add]. destruct (IH {| db_individuals := db_individuals w;
    db_samples := db_samples w;
    db_datasets := (λ d, if decide (dataset_id d = id0) then add_sample s d else d)
                     <$> db_datasets w;
    log := log w; compared := compared w |}) as [-> ->]. done.
Qed.

Lemma create_and_link_frame d w :
  db_samples (create_and_link A il p path d w).2 = db_samples w
  ∧ db_individuals (create_and_link A il p path d w).2 = db_individuals w.
Proof.
  unfold create_and_link. case_decide; [|done].
  rewrite bind_run. unfold try_except. rewrite Dataset_objects_get_run.
  destruct (get_result A path p (db_datasets w)) as [dataset|e].
  - rewrite bind_run.
    pose proof (link_all_frame (dataset_id dataset) (map_to_list d) w) as [Hs Hi].
    destruct (for_each _ (map_to_list d) () w) as [[[]|e] w']; simpl in *; done.
  - destruct e; try done.
    rewrite decide_True by done. rewrite bind_run. cbn [logger_info].
    unfold Dataset_objects_create. cbv beta iota zeta. rewrite bind_run.
    match goal with |- context [for_each (λ _ kv, samples_add ?i kv.2) _ () ?w1] =>
      pose proof (link_all_frame i (map_to_list d) w1) as [Hs Hi];
      destruct (for_each (λ _ kv, samples_add i kv.2) (map_to_list d) () w1)
        as [[[]|e] w'] end; simpl in *; done.
Qed.

Lemma link_dataset_validate_only_tables ids d w :
  same_tables w (link_dataset o A il add_or_update p path true yes ids d w).2.
Proof.
  unfold link_dataset. rewrite bind_run, check_already_loaded_run.
  destruct (get_result A path p (db_datasets w)) as [dataset|e].
  - destruct (decide (already_loaded d dataset)); done.
  - destruct e; done.
Qed.

(** X8: a validate-only run of [handle] (from the matcher on) leaves the
    Individual, Sample and Dataset tables as they are, whether it returns or
    raises. *)
Theorem handle_validate_only_writes_nothing t max ids w :
  same_tables w (handle o A il add_or_update p t path true max yes ids w).2.
Proof.
  unfold handle. rewrite bind_run.
  pose proof (validate_only_creates_nothing o p t max ids w) as (Hs & Hi & Hd).
  destruct (_match_vcf_id_to_sample_id o p t true max ids w) as [[d|e] w1]; simpl in *.
  - destruct (link_dataset_validate_only_tables ids d w1) as (Hi' & Hs' & Hd').
    unfold same_tables. rewrite <- Hi', <- Hs', <- Hd'. done.
  - done.
Qed.

Lemma offer_extra_samples_eq v d w :
  offer_extra_samples o add_or_update p yes v d w
  = (Return (),
     if decide (size d < len_ids v)%nat
     then if yes then (provision add_or_update p (iter o (set_ids v ∖ dom d)) w).2 else w
     else w).
Proof. unfold offer_extra_samples. case_decide; [destruct yes|]; reflexivity. Qed.

Lemma link_dataset_tables_cases vo ids d w :
  let w' := (link_dataset o A il add_or_update p path vo yes ids d w).2 in
  db_samples w' = db_samples w
  ∧ (db_individuals w' = db_individuals w
     ∨ (db_individuals w'
        = add_or_update p (iter o (list_to_set ids ∖ dom d)) (db_individuals w)
        ∧ vo = false ∧ yes = true ∧ size d < List.length ids
        ∧ get_result A path p (db_datasets w) = Raise ObjectDoesNotExist)).
Proof.
  unfold link_dataset. rewrite bind_run, check_already_loaded_run.
  destruct (get_result A path p (db_datasets w)) as [dataset|e].
  - destruct (decide (already_loaded d dataset)); [simpl; auto|].
    destruct vo; [simpl; auto|]. rewrite bind_run, offer_extra_samples_eq.
    cbn [len_ids]. rewrite size_dom. rewrite decide_False by lia.
    destruct (create_and_link_frame d w) as [-> ->]. auto.
  - destruct e; try (simpl; auto).
    destruct vo; [simpl; auto|]. rewrite bind_run, offer_extra_samples_eq.
    cbn [len_ids set_ids].
    case_decide as Hlen; [destruct yes eqn:Hyes|].
    + match goal with |- context [create_and_link A il p path d ?w1] =>
        destruct (create_and_link_frame d w1) as [-> ->] end.
      simpl. split; [done|]. right. done.
    + destruct (create_and_link_frame d w) as [-> ->]. auto.
    + destruct (create_and_link_frame d w) as [-> ->]. auto.
Qed.

(** X9: the linking part never changes the Sample table.  It changes the
    Individual table only by one call of the provisioning helper on the vcf
    ids that are not keys of the dict, and only when the run is not
    validate-only, the lookup found no dataset, the dict has fewer entries
    than the VCF has sample ids, and the answer to the prompt was yes. *)
Theorem link_dataset_provisions_only_unmatched vo ids d w :
  let w' := (link_dataset o A il add_or_update p path vo yes ids d w).2 in
  db_samples w' = db_samples w
  ∧ (db_individuals w' = db_individuals w
     ∨ (db_individuals w'
        = add_or_update p (iter o (list_to_set ids ∖ dom d)) (db_individuals w)
        ∧ vo = false ∧ yes = true ∧ size d < List.length ids
        ∧ get_result A path p (db_datasets w) = Raise ObjectDoesNotExist)).
Proof. apply link_dataset_tables_cases. Qed.

(** X10: when the lookup finds a dataset, the vcf ids the matcher left
    unmatched are never offered for creation: whatever the answer at the
    prompt would be, the Individual table stays as it is. *)
Theorem existing_dataset_never_provisions vo ids d w dataset :
  Dataset_objects_get A path p w = (Return dataset, w) →
  db_individuals (link_dataset o A il add_or_update p path vo yes ids d w).2
  = db_individuals w.
Proof.
  intros Hget. rewrite Dataset_objects_get_run in Hget. injection Hget as Hget.
  destruct (link_dataset_tables_cases vo ids d w) as [_ [H|(_ & _ & _ & _ & H)]];
    [done | congruence].
Qed.

(** X11: with an empty dict (no vcf id matched) the linking part creates no
    Dataset and links nothing. *)
Theorem nothing_matched_links_nothing vo ids w :
  db_datasets (link_dataset o A il add_or_update p path vo yes ids ∅ w).2 = db_datasets w.
Proof.
  rewrite link_dataset_datasets by (intros k v Hk; by rewrite lookup_empty in Hk).
  unfold linked_datasets. rewrite map_size_empty.
  destruct (get_result A path p (db_datasets w)) as [ds|e].
  - repeat case_decide; try lia; by destruct vo.
  - destruct e; try done. destruct vo; [done|]. case_decide; [lia | done].
Qed.

Lemma get_result_cases rows :
  (∃ ds, get_result A path p rows = Return ds)
  ∨ get_result A path p rows = Raise ObjectDoesNotExist
  ∨ get_result A path p rows = Raise MultipleObjectsReturned.
Proof.
  unfold get_result. destruct (selected A path p rows) as [|? [|? ?]]; eauto.
Qed.

Lemma link_dataset_result ids d w :
  samples_of_project p d →
  (link_dataset o A il add_or_update p path false yes ids d w).1
  = match get_result A path p (db_datasets w) with
    | Raise ObjectDoesNotExist => Return ()
    | Raise e => Raise e
    | Return _ => Return ()
    end.
Proof.
  intros Hd. apply samples_of_project_records in Hd.
  assert (Hcl : ∀ w1, db_datasets w1 = db_datasets w →
            (create_and_link A il p path d w1).1
            = if decide (0 < size d)%nat then
                match get_result A path p (db_datasets w) with
                | Raise ObjectDoesNotExist => Return ()
                | Raise e => Raise e
                | Return _ => Return ()
                end
              else Return ()).
  { intros w1 Hw1. unfold create_and_link. case_decide; [|done].
    rewrite bind_run. unfold try_except. rewrite Dataset_objects_get_run, Hw1.
    destruct (get_result A path p (db_datasets w)) as [dataset|e].
    - rewrite bind_run.
      destruct (link_all_run (dataset_id dataset) (map_to_list d) Hd w1) as (w' & -> & _).
      done.
    - destruct e; try done.
      rewrite decide_True by done. rewrite bind_run. cbn [logger_info].
      unfold Dataset_objects_create. cbv beta iota zeta. rewrite bind_run.
      match goal with |- context [for_each (λ _ kv, samples_add ?i kv.2) _ () ?w2] =>
        destruct (link_all_run i (map_to_list d) Hd w2) as (w' & Hrun & _); rewrite Hrun end.
      done. }
  unfold link_dataset. rewrite bind_run, check_already_loaded_run.
  destruct (get_result A path p (db_datasets w)) as [dataset|e] eqn:Hg.
  - destruct (decide (already_loaded d dataset)); [done|]. rewrite bind_run.
    destruct (offer_extra_samples_run o add_or_update p yes (IdSet (dom d)) d w)
      as (w' & -> & Hds & _).
    rewrite (Hcl w' Hds). by case_decide.
  - destruct e; try done. rewrite bind_run.
    destruct (offer_extra_samples_run o add_or_update p yes (IdList ids) d w)
      as (w' & -> & Hds & _).
    rewrite (Hcl w' Hds). by case_decide.
Qed.

(** X12: not validate-only, for a non-empty dict of Samples of the project,
    unless the lookup finds several datasets the linking part returns, and
    afterwards the lookup finds exactly one dataset, of the analysis type and
    path of the run; that dataset either was loaded already and has every key
    of the dict among its sample ids, or has every Sample of the dict linked
    to it. *)
Theorem link_dataset_links_every_sample ids d w :
  samples_of_project p d → (0 < size d)%nat →
  get_result A path p (db_datasets w) ≠ Raise MultipleObjectsReturned →
  let run := link_dataset o A il add_or_update p path false yes ids d w in
  run.1 = Return ()
  ∧ ∃ dataset,
      Dataset_objects_get A path p run.2 = (Return dataset, run.2)
      ∧ analysis_type dataset = A ∧ source_file_path dataset = path
      ∧ ((is_loaded dataset = true ∧ ∀ k, k ∈ dom d → k ∈ sample_id <$> samples dataset)
         ∨ ∀ k s, d !! k = Some (SampleRecord s) →
                  sample_pk s ∈ sample_pk <$> samples dataset).
Proof.
  intros Hd Hsize Hmult run. subst run. split.
  - rewrite link_dataset_result by done.
    destruct (get_result_cases (db_datasets w)) as [[ds Hg]|[Hg|Hg]];
      [by rewrite Hg | by rewrite Hg | by destruct Hmult].
  - rewrite Dataset_objects_get_run, link_dataset_datasets by done.
    assert (Hin : ∀ k s, d !! k = Some (SampleRecord s) → s ∈ dict_samples d).
    { intros k s Hk. unfold dict_samples. apply list_elem_of_omap.
      exists (k, SampleRecord s). split; [by apply elem_of_map_to_list | done]. }
    unfold linked_datasets.
    destruct (get_result_cases (db_datasets w)) as [[ds Hg]|[Hg|Hg]]; [| |done];
      rewrite Hg.
    + apply get_result_Return in Hg.
      destruct (selected_one A add_or_update p path _ _ Hg) as (_ & (HA & Hp & _) & _).
      destruct (decide (already_loaded d ds)) as [[Hl Hsz]|Hnl].
      * exists ds. split; [by rewrite (proj2 (get_result_Return A p path _ _) Hg)|].
        split; [done|]. split; [done|]. left. split; [done|].
        intros k Hk. apply size_empty_iff in Hsz.
        destruct (decide (k ∈ (list_to_set (sample_id <$> samples ds) : gset string)))
          as [Hks|Hks]; [by apply elem_of_list_to_set in Hks|].
        exfalso. apply (not_elem_of_empty (C := gset string) k). rewrite <- Hsz.
        by apply elem_of_difference.
      * destruct (decide (0 < size d)%nat) as [_|Hn]; [|done].
        exists (add_samples (dict_samples d) ds).
        split; [|split; [|split]].
        -- f_equal. apply get_result_Return. by apply (selected_link_rows A add_or_update).
        -- destruct (add_samples_fields (dict_samples d) ds) as (_ & -> & _). done.
        -- destruct (add_samples_fields (dict_samples d) ds) as (_ & _ & -> & _). done.
        -- right. intros k s Hk. apply (add_samples_linked add_or_update p). eauto.
    + destruct (decide (0 < size d)%nat) as [_|Hn]; [|done].
      apply get_result_not_exist in Hg.
      destruct (dict_samples_cons add_or_update p d Hd Hsize) as (s0 & vals & Hvals & Hs0).
      destruct (selected_created A add_or_update p path (db_datasets w) il s0 vals Hg Hs0) as [Hlink Hsel].
      rewrite Hvals, Hlink.
      eexists. split; [f_equal; apply get_result_Return; exact Hsel|].
      split; [|split].
      * match goal with |- analysis_type (add_samples ?v ?r) = _ =>
          destruct (add_samples_fields v r) as (_ & -> & _) end. done.
      * match goal with |- source_file_path (add_samples ?v ?r) = _ =>
          destruct (add_samples_fields v r) as (_ & _ & -> & _) end. done.
      * right. intros k s Hk. apply (add_samples_linked add_or_update p). rewrite <- Hvals. eauto.
Qed.

End LinkerMore.

Lemma existing_dataset_never_provisions_witness :
  db_individuals
    (link_dataset elements_order "VARIANTS" false
       (λ _ ids l, l ++ (individual_of <$> ids)) "P" "a.vcf" false true ["S1"; "ZZ"]
       {[ "S1" := SampleRecord {| sample_pk := 7; sample_id := "S1"; sample_type := "WES";
                                  individual := individual_of "I1" |} ]}
       loaded_world).2
  = db_individuals loaded_world.
Proof.
  apply (existing_dataset_never_provisions elements_order "VARIANTS" false
           (λ _ ids l, l ++ (individual_of <$> ids)) "P" "a.vcf" true false ["S1"; "ZZ"]
           {[ "S1" := SampleRecord {| sample_pk := 7; sample_id := "S1"; sample_type := "WES";
                                      individual := individual_of "I1" |} ]}
           loaded_world
           {| dataset_id := 3; analysis_type := "VARIANTS"; source_file_path := "a.vcf";
              is_loaded := true;
              samples := [ {| sample_pk := 7; sample_id := "S1"; sample_type := "WES";
                              individual := individual_of "I1" |} ] |}).
  vm_compute. reflexivity.
Defined.

Lemma link_dataset_links_every_sample_witness :
  let s := {| sample_pk := 7; sample_id := "S1"; sample_type := "WES";
              individual := individual_of "I1" |} in
  let d : gmap string SampleValue := {[ "S1" := SampleRecord s ]} in
  let run := link_dataset elements_order "VARIANTS" false (λ _ _ l, l) "P" "a.vcf" false true
               ["S1"] d sampled_world in
  run.1 = Return ()
  ∧ ∃ dataset,
      Dataset_objects_get "VARIANTS" "a.vcf" "P" run.2 = (Return dataset, run.2)
      ∧ analysis_type dataset = "VARIANTS" ∧ source_file_path dataset = "a.vcf"
      ∧ ((is_loaded dataset = true ∧ ∀ k, k ∈ dom d → k ∈ sample_id <$> samples dataset)
         ∨ ∀ k s', d !! k = Some (SampleRecord s') →
                   sample_pk s' ∈ sample_pk <$> samples dataset).
Proof.
  intros s d run.
  apply (link_dataset_links_every_sample elements_order "VARIANTS" false (λ _ _ l, l) "P"
           "a.vcf" true ["S1"] d sampled_world).
  - intros k v Hk. apply lookup_singleton_Some in Hk as [_ <-]. exists s. split; reflexivity.
  - vm_compute. lia.
  - vm_compute. discriminate.
Defined.

(** * Further properties of [compute_edit_distance] *)

Section EditDistanceMore.

Import EditDistance.

(** ** The recurrence of [lev] *)

Lemma lev_nil_l t : lev [] t = List.length t.
Proof. by destruct t. Qed.

Lemma lev_nil_r s : lev s [] = List.length s.
Proof. by destruct s. Qed.

Lemma lev_cons_cons a s b t :
  lev (a :: s) (b :: t)
  = Nat.min (Nat.min (lev s (b :: t) + 1) (lev (a :: s) t + 1))
            (lev s t + (if decide (a = b) then 0 else 1)).
Proof. reflexivity. Qed.

Lemma lev_sym s : ∀ t, lev s t = lev t s.
Proof.
  induction s as [|a s IHs]; intros t; [by rewrite lev_nil_l, lev_nil_r|].
  induction t as [|b t IHt]; [by rewrite lev_nil_l, lev_nil_r|].
  rewrite !lev_cons_cons, IHt, (IHs (b :: t)), (IHs t).
  repeat case_decide; subst; try done; lia.
Qed.

Lemma lev_snoc_l a s : ∀ t, (lev (s ++ [a]) t ≤ lev s t + 1)%nat.
Proof.
  induction s as [|c s IHs]; intros t.
  - rewrite lev_nil_l. induction t as [|b t IHt]; [simpl; lia|].
    cbn [app] in *. rewrite lev_cons_cons, !lev_nil_l. cbn [List.length].
    case_decide; lia.
  - induction t as [|b t IHt].
    + rewrite !lev_nil_r. cbn [app List.length]. rewrite length_app. simpl. lia.
    + cbn [app] in *. rewrite !lev_cons_cons.
      pose proof (IHs (b :: t)). pose proof (IHs t). case_decide; lia.
Qed.

Lemma lev_snoc_r b t s : (lev s (t ++ [b]) ≤ lev s t + 1)%nat.
Proof. rewrite (lev_sym s (t ++ [b])), (lev_sym s t). apply lev_snoc_l. Qed.

Lemma lev_snoc_snoc a b s : ∀ t,
  (lev (s ++ [a]) (t ++ [b]) ≤ lev s t + (if decide (a = b) then 0 else 1))%nat.
Proof.
  induction s as [|c s IHs]; intros t.
  - rewrite lev_nil_l. induction t as [|d t IHt].
    + cbn [app]. rewrite lev_cons_cons, !lev_nil_l. simpl. repeat case_decide; lia.
    + cbn [app] in *. rewrite lev_cons_cons. cbn [List.length]. lia.
  - induction t as [|d t IHt].
    + pose proof (IHs []) as H. rewrite lev_nil_r in *. cbn [app] in *.
      rewrite lev_cons_cons. cbn [List.length]. lia.
    + cbn [app] in *. rewrite !lev_cons_cons.
      pose proof (IHs (d :: t)) as H1. cbn [app] in H1. pose proof (IHs t).
      repeat case_decide; lia.
Qed.

Lemma lev_zero s : ∀ t, lev s t = 0 → s = t.
Proof.
  induction s as [|a s IHs]; intros t.
  - rewrite lev_nil_l. by destruct t.
  - destruct t as [|b t]; [done|]. rewrite lev_cons_cons. intros H.
    assert (lev s t = 0 ∧ a = b) as [H0 ->] by (case_decide; split; try done; lia).
    by rewrite (IHs t H0).
Qed.

(** ** Entries of the arrays *)

Lemma removelast_lookup (l : list nat) j :
  (S j < List.length l)%nat → removelast l !! j = l !! j.
Proof. intros. rewrite removelast_firstn_len. apply lookup_take_lt. lia. Qed.

Lemma np_add1_lookup row j : np_add1 row !! j = (λ x, x + 1) <$> row !! j.
Proof. exact (list_lookup_fmap _ row j). Qed.

Lemma np_not_equal_lookup t s j : np_not_equal t s !! j = (λ c, ne c s) <$> t !! j.
Proof. exact (list_lookup_fmap _ t j). Qed.

Lemma assign_from_1_lookup_0 x row tl : assign_from_1 (x :: row) tl !! 0 = Some x.
Proof. reflexivity. Qed.

Lemma assign_from_1_lookup_S x row tl j : assign_from_1 (x :: row) tl !! S j = tl !! j.
Proof. reflexivity. Qed.

Lemma sub_row_lookup_0 t prev s a :
  prev !! 0 = Some a → sub_row t prev s !! 0 = Some (a + 1).
Proof. destruct prev as [|p0 prev]; [done|]. intros [= ->]. reflexivity. Qed.

Lemma sub_row_lookup_S t prev s j a b c :
  prev !! j = Some a → prev !! S j = Some b → t !! j = Some c →
  sub_row t prev s !! S j = Some (Nat.min (b + 1) (a + ne c s)).
Proof.
  intros Ha Hb Hc. pose proof (lookup_lt_Some _ _ _ Hb) as Hlt.
  destruct prev as [|p0 prev]; [done|].
  unfold sub_row. cbv zeta. unfold np_add1 at 1. cbn [map].
  rewrite assign_from_1_lookup_S. unfold np_minimum, np_add.
  rewrite !lookup_zip_with, lookup_drop, np_add1_lookup, removelast_lookup by done.
  rewrite np_not_equal_lookup. change (1 + j) with (S j).
  rewrite Ha, Hb, Hc. reflexivity.
Qed.

Lemma del_row_lookup_0 row x : row !! 0 = Some x → del_row row !! 0 = Some x.
Proof. destruct row as [|r0 row]; [done|]. intros [= ->]. reflexivity. Qed.

Lemma del_row_lookup_S row j x y :
  row !! j = Some x → row !! S j = Some y →
  del_row row !! S j = Some (Nat.min y (x + 1)).
Proof.
  intros Hx Hy. pose proof (lookup_lt_Some _ _ _ Hy) as Hlt.
  destruct row as [|r0 row]; [done|].
  unfold del_row. rewrite assign_from_1_lookup_S. unfold np_minimum.
  rewrite lookup_zip_with, lookup_drop, np_add1_lookup, removelast_lookup by done.
  change (1 + j) with (S j). rewrite Hx, Hy. reflexivity.
Qed.

Lemma length_removelast (l : list nat) : List.length (removelast l) = pred (List.length l).
Proof. rewrite removelast_firstn_len, length_take. lia. Qed.

Lemma sub_row_length t prev s :
  List.length prev = S (List.length t) → List.length (sub_row t prev s) = S (List.length t).
Proof.
  intros Hl. unfold sub_row, assign_from_1, np_minimum, np_add, np_not_equal, np_add1.
  rewrite length_app, length_take, !length_zip_with, length_drop, length_removelast.
  rewrite !length_map. lia.
Qed.

Lemma del_row_length row :
  (1 ≤ List.length row)%nat → List.length (del_row row) = List.length row.
Proof.
  intros Hl. unfold del_row, assign_from_1, np_minimum, np_add1.
  rewrite length_app, length_take, length_zip_with, length_drop, length_map.
  rewrite length_removelast. lia.
Qed.

Lemma row_step_del_sub t prev s : row_step t prev s = del_row (sub_row t prev s).
Proof. reflexivity. Qed.

Lemma row_step_length t prev s :
  List.length prev = S (List.length t) →
  List.length (row_step t prev s) = S (List.length t).
Proof.
  intros Hl. rewrite row_step_del_sub, del_row_length; rewrite sub_row_length; done || lia.
Qed.

(** A property of the entries is carried through one turn of the loop when
    it is carried by the three assignments. *)
Lemma row_step_forall (P Q : nat → nat → Prop) t prev s :
  List.length prev = S (List.length t) →
  (∀ a, P 0 a → Q 0 (a + 1)) →
  (∀ j a b c, t !! j = Some c → P j a → P (S j) b →
              Q (S j) (Nat.min (b + 1) (a + ne c s))) →
  (∀ j x y c, t !! j = Some c → Q j x → Q (S j) y → Q (S j) (Nat.min y (x + 1))) →
  row_forall P prev → row_forall Q (row_step t prev s).
Proof.
  intros Hl H0 Hsub Hdel HP.
  assert (HQ : row_forall Q (sub_row t prev s)).
  { intros j x Hx. pose proof (lookup_lt_Some _ _ _ Hx) as Hj.
    rewrite sub_row_length in Hj by done. destruct j as [|j].
    - destruct (lookup_lt_is_Some_2 prev 0) as [a Ha]; [lia|].
      rewrite (sub_row_lookup_0 _ _ _ _ Ha) in Hx. injection Hx as <-. by apply H0, HP.
    - destruct (lookup_lt_is_Some_2 prev j) as [a Ha]; [lia|].
      destruct (lookup_lt_is_Some_2 prev (S j)) as [b Hb]; [lia|].
      destruct (lookup_lt_is_Some_2 t j) as [c Hc]; [lia|].
      rewrite (sub_row_lookup_S _ _ _ _ _ _ _ Ha Hb Hc) in Hx. injection Hx as <-.
      apply Hsub; [done | by apply HP | by apply HP]. }
  pose proof (sub_row_length t prev s Hl) as Hl'. rewrite row_step_del_sub.
  intros j x Hx. pose proof (lookup_lt_Some _ _ _ Hx) as Hj.
  rewrite del_row_length, Hl' in Hj by lia. destruct j as [|j].
  - destruct (lookup_lt_is_Some_2 (sub_row t prev s) 0) as [a Ha]; [lia|].
    rewrite (del_row_lookup_0 _ _ Ha) in Hx. injection Hx as <-. by apply HQ.
  - destruct (lookup_lt_is_Some_2 (sub_row t prev s) j) as [a Ha]; [lia|].
    destruct (lookup_lt_is_Some_2 (sub_row t prev s) (S j)) as [b Hb]; [lia|].
    destruct (lookup_lt_is_Some_2 t j) as [c Hc]; [lia|].
    rewrite (del_row_lookup_S _ _ _ _ Ha Hb) in Hx. injection Hx as <-.
    apply (Hdel j a b c); [done | by apply HQ | by apply HQ].
Qed.

(** ** The rows of the sweep *)

Lemma rows_after_snoc t src s :
  rows_after t (src ++ [s]) = row_step t (rows_after t src) s.
Proof. unfold rows_after. by rewrite fold_left_app. Qed.

Lemma rows_after_length t src : List.length (rows_after t src) = S (List.length t).
Proof.
  induction src as [|s src IH] using rev_ind.
  - unfold rows_after, np_arange. cbn [fold_left]. rewrite length_seq. lia.
  - rewrite rows_after_snoc. by apply row_step_length.
Qed.

Lemma rows_after_inv t src : row_forall (row_inv src t) (rows_after t src).
Proof.
  induction src as [|s src IH] using rev_ind.
  - intros j x Hx. unfold rows_after, np_arange in Hx. cbn [fold_left] in Hx.
    apply lookup_seq in Hx as [-> Hj]. unfold row_inv. rewrite lev_nil_l, length_take.
    simpl. lia.
  - rewrite rows_after_snoc.
    apply (row_step_forall (row_inv src t)); [apply rows_after_length | | | | exact IH].
    + intros a (H1 & H2 & H3 & H4). unfold row_inv in *.
      rewrite lev_nil_r, length_app in *. simpl in *. lia.
    + intros j a b c Hc (A1 & A2 & A3 & A4) (B1 & B2 & B3 & B4). unfold row_inv.
      rewrite (take_S_r _ _ _ Hc) in *. rewrite length_app. cbn [List.length].
      pose proof (lev_snoc_l s src (take j t ++ [c])).
      pose proof (lev_snoc_snoc s c src (take j t)).
      unfold ne. repeat case_decide; subst; try done; lia.
    + intros j x y c Hc (A1 & A2 & A3 & A4) (B1 & B2 & B3 & B4). unfold row_inv.
      rewrite (take_S_r _ _ _ Hc) in *. rewrite length_app in *. cbn [List.length] in *.
      pose proof (lev_snoc_r c (take j t) (src ++ [s])). lia.
Qed.

(** On the diagonal of a string against itself the rows hold 0. *)
Lemma rows_after_diag t i :
  (i ≤ List.length t)%nat → rows_after t (take i t) !! i = Some 0.
Proof.
  induction i as [|i IH]; intros Hi.
  - unfold rows_after, np_arange. cbn [take fold_left]. apply lookup_seq. lia.
  - destruct (lookup_lt_is_Some_2 t i) as [c Hc]; [lia|].
    rewrite (take_S_r _ _ _ Hc), rows_after_snoc, row_step_del_sub.
    pose proof (rows_after_length t (take i t)) as Hl.
    destruct (lookup_lt_is_Some_2 (rows_after t (take i t)) (S i)) as [b Hb]; [lia|].
    pose proof (sub_row_lookup_S t _ c _ _ _ _ (IH ltac:(lia)) Hb Hc) as HS.
    pose proof (sub_row_length t _ c Hl) as Hl'.
    destruct (lookup_lt_is_Some_2 (sub_row t (rows_after t (take i t)) c) i) as [x Hx];
      [lia|].
    rewrite (del_row_lookup_S _ _ _ _ Hx HS). unfold ne. rewrite decide_True by done.
    f_equal. lia.
Qed.

Lemma List_last_lookup (l : list nat) d x :
  l !! pred (List.length l) = Some x → List.last l d = x.
Proof.
  induction l as [|a l IH]; [done|]. destruct l as [|b l].
  - by intros [= ->].
  - intros H. apply IH. exact H.
Qed.

Lemma sweep_rows src tgt x :
  tgt ≠ [] → rows_after tgt src !! List.length tgt = Some x → sweep src tgt = x.
Proof.
  intros Hne Hx. unfold sweep. rewrite decide_False by by destruct tgt.
  apply List_last_lookup. fold (rows_after tgt src). by rewrite rows_after_length.
Qed.

Lemma sweep_inv src tgt : row_inv src tgt (List.length tgt) (sweep src tgt).
Proof.
  destruct tgt as [|c tgt].
  - unfold row_inv. rewrite sweep_empty_target. cbn [take List.length]. rewrite lev_nil_r. lia.
  - destruct (lookup_lt_is_Some_2 (rows_after (c :: tgt) src) (List.length (c :: tgt)))
      as [x Hx]; [rewrite rows_after_length; lia|].
    rewrite (sweep_rows _ _ x) by done. by apply rows_after_inv.
Qed.

Lemma sweep_bounds src tgt :
  (List.length src - List.length tgt ≤ sweep src tgt
   ∧ List.length tgt - List.length src ≤ sweep src tgt
   ∧ sweep src tgt ≤ Nat.max (List.length src) (List.length tgt)
   ∧ lev src tgt ≤ sweep src tgt)%nat.
Proof.
  destruct (sweep_inv src tgt) as (H1 & H2 & H3 & H4).
  rewrite take_ge in H4 by done. lia.
Qed.

Lemma sweep_diag t : sweep t t = 0.
Proof.
  destruct t as [|c t]; [done|]. apply sweep_rows; [done|].
  pose proof (rows_after_diag (c :: t) (List.length (c :: t)) ltac:(lia)) as H.
  by rewrite take_ge in H.
Qed.

Lemma length_list_ascii_of_string (s : string) :
  List.length (list_ascii_of_string s) = String.length s.
Proof. induction s; simpl; congruence. Qed.

(** X13: the function never returns less than the Levenshtein distance of
    its arguments: the missed deletions can only make the result larger. *)
Theorem compute_edit_distance_ge_levenshtein (a b : string) :
  (levenshtein a b ≤ compute_edit_distance a b)%nat.
Proof.
  unfold levenshtein, compute_edit_distance. cbv zeta. case_decide.
  - rewrite lev_sym. apply sweep_bounds.
  - apply sweep_bounds.
Qed.

(** X14: the result lies between the difference of the two lengths and the
    larger of the two lengths. *)
Theorem compute_edit_distance_bounds (a b : string) :
  (String.length a - String.length b ≤ compute_edit_distance a b
   ∧ String.length b - String.length a ≤ compute_edit_distance a b
   ∧ compute_edit_distance a b ≤ Nat.max (String.length a) (String.length b))%nat.
Proof.
  unfold compute_edit_distance. cbv zeta. rewrite <- !length_list_ascii_of_string.
  case_decide.
  - destruct (sweep_bounds (list_ascii_of_string b) (list_ascii_of_string a))
      as (? & ? & ? & _). lia.
  - destruct (sweep_bounds (list_ascii_of_string a) (list_ascii_of_string b))
      as (? & ? & ? & _). lia.
Qed.

Lemma compute_edit_distance_zero_eq (a b : string) :
  compute_edit_distance a b = 0 → a = b.
Proof.
  intros H0.
  assert (Hl : lev (list_ascii_of_string a) (list_ascii_of_string b) = 0).
  { revert H0. unfold compute_edit_distance. cbv zeta. case_decide; intros H0.
    - rewrite lev_sym.
      pose proof (sweep_bounds (list_ascii_of_string b) (list_ascii_of_string a)). lia.
    - pose proof (sweep_bounds (list_ascii_of_string a) (list_ascii_of_string b)). lia. }
  apply lev_zero in Hl.
  rewrite <- (string_of_list_ascii_of_string a), <- (string_of_list_ascii_of_string b).
  by rewrite Hl.
Qed.

Lemma compute_edit_distance_diag (a : string) : compute_edit_distance a a = 0.
Proof.
  unfold compute_edit_distance. cbv zeta. rewrite decide_False by lia. apply sweep_diag.
Qed.

(** X15: the result is 0 exactly when the two strings are equal. *)
Theorem compute_edit_distance_zero_iff (a b : string) :
  compute_edit_distance a b = 0 ↔ a = b.
Proof.
  split; [apply compute_edit_distance_zero_eq|].
  intros ->. apply compute_edit_distance_diag.
Qed.

(** X16: on two strings of different lengths the order of the arguments
    does not matter: the swap on entry sends both calls to the same sweep. *)
Theorem compute_edit_distance_swap (a b : string) :
  String.length a ≠ String.length b →
  compute_edit_distance a b = compute_edit_distance b a.
Proof.
  intros Hne. unfold compute_edit_distance. cbv zeta.
  rewrite !length_list_ascii_of_string. repeat case_decide; done || lia.
Qed.

End EditDistanceMore.

Lemma compute_edit_distance_swap_witness :
  EditDistance.compute_edit_distance "S1x" "S1" = EditDistance.compute_edit_distance "S1" "S1x".
Proof. apply (compute_edit_distance_swap "S1x" "S1"). simpl. lia. Defined.

(** * The ids the fuzzy stage compares *)

(** X17: every call of [compute_edit_distance] the matcher makes compares a
    vcf id with an individual id of the project that differs from it, so
    every distance it computes is at least 1. *)
Theorem matcher_compares_only_distinct_ids o p t vo max ids w q :
  q ∈ new_compared w (_match_vcf_id_to_sample_id o p t vo max ids w).2 →
  q.1 ∈ ids ∧ q.2 ∈ individual_id <$> all_individuals_of p w
  ∧ q.1 ≠ q.2
  ∧ (1 ≤ EditDistance.compute_edit_distance q.1 q.2)%nat.
Proof.
  destruct (match_run o p t vo max ids w)
    as (d1 & d2 & r & w' & Hrun & H1 & [H2in H2out] & _ & _ & Hext).
  rewrite Hrun. simpl. intros Hq.
  destruct (extends_new_compared _ _ _ _ _ Hext) as [_ HF].
  rewrite Forall_forall in HF. destruct (HF q Hq) as (HqR & Hql & _).
  apply elem_of_difference in HqR as [HqX Hqd].
  assert (Hne : q.1 ≠ q.2).
  { intros Heq. apply Hqd. rewrite <- Heq in Hql.
    destruct (decide (q.1 ∈ (list_to_set ids : gset string) ∖ dom d1
                      ∧ q.1 ∈ individual_id <$> all_individuals_of p w)) as [[HR Hl]|Hno].
    - destruct (H2in _ HR Hl) as (v & Hv & _). apply elem_of_dom. eauto.
    - destruct (decide (q.1 ∈ dom d1)) as [Hin|Hout].
      + apply elem_of_dom. rewrite H2out by done. by apply elem_of_dom.
      + destruct Hno. split; [by apply elem_of_difference | done]. }
  split; [by apply elem_of_list_to_set in HqX|]. split; [done|]. split; [done|].
  destruct (EditDistance.compute_edit_distance q.1 q.2) eqn:Hd; [|lia].
  by apply compute_edit_distance_zero_eq in Hd.
Qed.

Lemma matcher_compares_only_distinct_ids_witness :
  "S1x" ∈ ["S1x"] ∧ "S9" ∈ individual_id <$> all_individuals_of "P" (project_world ["S1"; "S9"])
  ∧ "S1x" ≠ "S9"
  ∧ (1 ≤ EditDistance.compute_edit_distance "S1x" "S9")%nat.
Proof.
  apply (matcher_compares_only_distinct_ids elements_order "P" "WES" false 2 ["S1x"]
           (project_world ["S1"; "S9"]) ("S1x", "S9")).
  vm_compute. apply list_elem_of_here.
Defined.

(** * The front of the command *)





Section CommandFacts.

Variable o : SetOrder.
Variable A : string.
Variable il : bool.
Variable add_or_update : string → list string → list Individual → list Individual.
Variable yes : bool.
Variable projects : list Project.
Variables (does_file_exist : string → bool) (read_header : string → string).
Variables (os_path_isfile : string → bool) (strip : string → string).

Lemma validate_local_path vcf_path :
  String.prefix "gs://" vcf_path = false →
  ∃ e, _validate_vcf does_file_exist read_header os_path_isfile strip vcf_path = Failed e
       ∧ (vcf_path ≠ EmptyString → os_path_isfile vcf_path = true →
          e = Uncaught UnboundLocalError).
Proof.
  intros Hp. unfold _validate_vcf, locate_header. rewrite Hp.
  case_decide as He.
  - exists CommandError. split; [done|]. intros Hn. by destruct Hn.
  - destruct (os_path_isfile vcf_path).
    + exists (Uncaught UnboundLocalError). done.
    + exists ValueError. done.
Qed.

Lemma validate_Done vcf_path ids :
  _validate_vcf does_file_exist read_header os_path_isfile strip vcf_path = Done ids →
  String.prefix "gs://" vcf_path = true ∧ does_file_exist vcf_path = true
  ∧ ids = drop 9 (split_tab (strip (read_header vcf_path))).
Proof.
  unfold _validate_vcf, locate_header. case_decide; [done|].
  destruct (String.prefix "gs://" vcf_path).
  - destruct (does_file_exist vcf_path); [|done]. by intros [= <-].
  - by destruct (os_path_isfile vcf_path).
Qed.

(** X18: [_validate_vcf] never returns for a path that does not start with
    [gs://]: [header_content] is assigned in the [gs://] branch only, so a
    local file that exists ends in UnboundLocalError (and one that does not,
    in ValueError). *)
Theorem validate_vcf_local_path_never_returns vcf_path :
  String.prefix "gs://" vcf_path = false →
  ∃ e, _validate_vcf does_file_exist read_header os_path_isfile strip vcf_path = Failed e
       ∧ (vcf_path ≠ EmptyString → os_path_isfile vcf_path = true →
          e = Uncaught UnboundLocalError).
Proof. apply validate_local_path. Qed.


(** X20: on a path that does not start with [gs://] the command always
    fails, before the matcher is reached: the tables, the log and the trace
    are left as they were. *)
Theorem command_local_path_fails t build vo max project_guid vcf_path w :
  String.prefix "gs://" vcf_path = false →
  ∃ e, Command_handle o A il add_or_update yes projects does_file_exist read_header
     os_path_isfile strip t build vo max project_guid vcf_path w = (Failed e, w).
Proof.
  intros Hp. unfold Command_handle.
  destruct (Project_objects_get projects project_guid) as [pr|e].
  - case_decide; [by eauto|].
    destruct (validate_local_path vcf_path Hp) as (e & -> & _). eauto.
  - destruct e; eauto.
Qed.

(** X21: whenever a run of the command changes a table, the log or the
    trace, every check of the front has passed: exactly one project has the
    given guid, its genome build is the one given, the path starts with
    [gs://] and the file exists. *)
Theorem command_effect_implies_checks t build vo max project_guid vcf_path w :
  (Command_handle o A il add_or_update yes projects does_file_exist read_header
     os_path_isfile strip t build vo max project_guid vcf_path w).2 ≠ w →
  ∃ project0, Project_objects_get projects project_guid = Return project0
              ∧ genome_build_id project0 = build
              ∧ String.prefix "gs://" vcf_path = true
              ∧ does_file_exist vcf_path = true.
Proof.
  unfold Command_handle.
  destruct (Project_objects_get projects project_guid) as [pr|e].
  - case_decide as Hb; [done|].
    destruct (_validate_vcf does_file_exist read_header os_path_isfile strip vcf_path)
      as [ids|e] eqn:Hv; [|done].
    apply validate_Done in Hv as (Hp & He & _). intros _. exists pr.
    split; [done|]. split; [|done].
    by destruct (decide (genome_build_id pr = build)).
  - by destruct e.
Qed.

End CommandFacts.

Lemma validate_vcf_local_path_never_returns_witness :
  ∃ e, _validate_vcf (λ _, true) (λ _, vcf_header ["S1"; "S2"]) (λ _, true) (λ s, s)
         "/data/a.vcf" = Failed e
       ∧ ("/data/a.vcf" ≠ EmptyString → (λ _ : string, true) "/data/a.vcf" = true →
          e = Uncaught UnboundLocalError).
Proof.
  apply (validate_vcf_local_path_never_returns (λ _, true) (λ _, vcf_header ["S1"; "S2"])
           (λ _, true) (λ s, s) "/data/a.vcf").
  reflexivity.
Defined.


Lemma command_local_path_fails_witness :
  ∃ e, Command_handle elements_order "VARIANTS" false (λ _ _ l, l) true
         [ {| guid := "P"; genome_build_id := "37" |} ]
         (λ _, true) (λ _, vcf_header ["S1"; "S2"]) (λ _, true) (λ s, s)
         "WES" "37" false 0 "P" "/data/a.vcf" (project_world ["S1"; "S2"])
       = (Failed e, project_world ["S1"; "S2"]).
Proof.
  apply (command_local_path_fails elements_order "VARIANTS" false (λ _ _ l, l) true
           [ {| guid := "P"; genome_build_id := "37" |} ]
           (λ _, true) (λ _, vcf_header ["S1"; "S2"]) (λ _, true) (λ s, s)
           "WES" "37" false 0 "P" "/data/a.vcf" (project_world ["S1"; "S2"])).
  reflexivity.
Defined.

Lemma command_effect_implies_checks_witness :
  ∃ project0, Project_objects_get [ {| guid := "P"; genome_build_id := "37" |} ] "P"
              = Return project0
              ∧ genome_build_id project0 = "37"
              ∧ String.prefix "gs://" "gs://bucket/a.vcf" = true
              ∧ (λ _ : string, true) "gs://bucket/a.vcf" = true.
Proof.
  apply (command_effect_implies_checks elements_order "VARIANTS" false (λ _ _ l, l) true
           [ {| guid := "P"; genome_build_id := "37" |} ]
           (λ _, true) (λ _, vcf_header ["S1"; "S2"]) (λ _, true) (λ s, s)
           "WES" "37" false 0 "P" "gs://bucket/a.vcf" (project_world ["S1"; "S2"])).
  intros H. apply (f_equal db_samples) in H. vm_compute in H. discriminate H.
Defined.

(** * The log of the matcher *)

Lemma print_stats_run X d w :
  ∃ w', print_stats X d w = (Return (), w') ∧ log w' = log w ++ stats_lines X d.
Proof.
  unfold print_stats, stats_lines. rewrite bind_run.
  destruct (decide (size d ≠ 0)); destruct (decide (size (X ∖ dom d) ≠ 0));
    eexists; (split; [reflexivity|]); cbn; by rewrite ?app_nil_r, <- ?app_assoc.
Qed.

Lemma match_run_log o p t vo max ids w r w' :
  _match_vcf_id_to_sample_id o p t vo max ids w = (r, w') →
  ∃ matches,
    log w' = log w ++ SampleIdsFound (List.length ids) ids :: matches
             ++ match r with
                | Return d => stats_lines (list_to_set ids) d
                | Raise _ => []
                end
    ∧ Forall exact_match_line matches.
Proof.
  unfold _match_vcf_id_to_sample_id. set (X := list_to_set ids : gset string).
  rewrite bind_run.
  destruct (logger_info (SampleIdsFound (List.length ids) ids) w) as [r0 w0] eqn:H0.
  unfold logger_info in H0. injection H0 as <- Hw0.
  assert (Hlog0 : log w0 = log w ++ [SampleIdsFound (List.length ids) ids])
    by by rewrite <- Hw0.
  clear Hw0. rewrite bind_run.
  destruct (step1_run o p t X w0) as (d1 & w1 & -> & _ & Hext1).
  destruct (ext_log _ _ _ _ _ Hext1) as (new1 & Hlog1 & HF1).
  rewrite bind_run. unfold Individual_objects_filter at 1. cbv beta iota.
  rewrite bind_run.
  match goal with |- context [step2 t vo X ?l d1 w1] =>
    destruct (step2_spec t vo X l d1 w1) as [Hext2 Hres2];
    destruct (step2 t vo X l d1 w1) as [[st|e] w2]; simpl in Hext2, Hres2; [|done];
    rewrite bind_run;
    destruct (step3_spec o t vo max X l st w2) as [Hext3 _];
    destruct (step3 o t vo max X l st w2) as [[d3|e] w3]; simpl in Hext3
  end.
  all: destruct (ext_log _ _ _ _ _ Hext2) as (new2 & Hlog2 & HF2).
  all: destruct (ext_log _ _ _ _ _ Hext3) as (new3 & Hlog3 & HF3).
  all: assert (new3 = []) as -> by (destruct new3; [done | by apply Forall_cons in HF3 as [[] _]]).
  all: assert (HF : Forall exact_match_line (new1 ++ new2)).
  1,3: apply Forall_app; split;
    [ eapply Forall_impl; [exact HF1|]; intros m Hm; by left
    | eapply Forall_impl; [exact HF2|]; intros m (i & _ & _ & ->); right; eauto ].
  - rewrite bind_run. destruct (print_stats_run X d3 w3) as (w4 & -> & Hlog4).
    intros [= <- <-]. exists (new1 ++ new2). split; [|done].
    rewrite Hlog4, Hlog3, Hlog2, Hlog1, Hlog0, app_nil_r.
    by rewrite <- !app_assoc.
  - intros [= <- <-]. exists (new1 ++ new2). split; [|done].
    rewrite Hlog3, Hlog2, Hlog1, Hlog0, !app_nil_r.
    by rewrite <- !app_assoc.
Qed.

Lemma returned_keys_subseteq o p t vo max ids w d :
  (_match_vcf_id_to_sample_id o p t vo max ids w).1 = Return d →
  dom d ⊆ (list_to_set ids : gset string).
Proof.
  intros Hret. destruct (returned_dict_lookup _ _ _ _ _ _ _ _ Hret) as (d1 & H1 & H2in & H2out).
  intros k Hk.
  destruct (decide (k ∈ (list_to_set ids : gset string) ∖ dom d1
                    ∧ k ∈ individual_id <$> all_individuals_of p w)) as [[HkR _]|Hno].
  - by apply elem_of_difference in HkR as [? _].
  - apply elem_of_dom in Hk. rewrite H2out, H1 in Hk by done.
    case_decide; [done | by destruct Hk].
Qed.

(** X22: the lines a run of the matcher logs are, in this order: the line
    with the number of sample ids found and the ids; lines that report exact
    matches; and, only when the run returns, the statistics of the returned
    dict: the number of matched ids if it is not 0, then the number of
    unmatched ids if it is not 0.  The two numbers add up to the number of
    distinct vcf ids. *)
Theorem matcher_log_shape o p t vo max ids w :
  let run := _match_vcf_id_to_sample_id o p t vo max ids w in
  let X : gset string := list_to_set ids in
  (∃ matches,
     new_log w run.2
     = SampleIdsFound (List.length ids) ids :: matches
       ++ match run.1 with Return d => stats_lines X d | Raise _ => [] end
     ∧ Forall exact_match_line matches)
  ∧ ∀ d, run.1 = Return d → (size d + size (X ∖ dom d) = size X)%nat.
Proof.
  intros run X. split.
  - destruct run as [r w'] eqn:Hrun. subst run.
    destruct (match_run_log _ _ _ _ _ _ _ _ _ Hrun) as (matches & Hlog & HF).
    exists matches. split; [|done]. unfold new_log. cbn [fst snd].
    by rewrite Hlog, drop_app_length.
  - intros d Hd. apply returned_keys_subseteq in Hd.
    rewrite <- size_dom. pose proof (size_union_alt (dom d) X) as Hu.
    assert (dom d ∪ X = X) as Heq by set_solver. rewrite Heq in Hu. lia.
Qed.
